(** * dynamite: GPU subspace index maps (bcuda_impl.cu)

    A shallow embedding of the state <-> index functions of the CUDA
    backend and of the device transfer routines, followed by the properties
    of the specification that concern them.

    Two generations of the file are embedded, each in a module of its own:
    - [BcudaImpl]: src/dynamite/_backend/bcuda_impl.cu (Parity drops the
      high bit, Auto uses a dense reverse table);
    - [Part000]: src/unnamed/part_000 (Parity drops the low bit,
      SpinConserve, Auto uses binary search over a sorted reverse map). *)

From Stdlib Require Import ZArith List Lia Bool Sorted.
Import ListNotations.
Local Open Scope Z_scope.

(** ** PetscInt

    [PetscInt] is a signed 32 or 64 bit integer, selected at build time by
    [PETSC_USE_64BIT_INDICES].  Values are integers of [Z]; arithmetic wraps
    around in two's complement. *)

Variant PetscIntKind := Int32 | Int64.

Definition bits (w : PetscIntKind) : Z :=
  match w with Int32 => 32 | Int64 => 64 end.

(** Two's complement reduction to [n] bits. *)
Definition wrap_bits (n : Z) (z : Z) : Z :=
  (z + 2 ^ (n - 1)) mod 2 ^ n - 2 ^ (n - 1).

Definition wrap (w : PetscIntKind) (z : Z) : Z := wrap_bits (bits w) z.

Definition PetscInt_min (w : PetscIntKind) : Z := - 2 ^ (bits w - 1).
Definition PetscInt_max (w : PetscIntKind) : Z := 2 ^ (bits w - 1) - 1.

Definition is_PetscInt (w : PetscIntKind) (z : Z) : Prop :=
  PetscInt_min w <= z <= PetscInt_max w.

(** [size_t], the type of [sizeof] and of byte counts: unsigned, 64 bits
    wide.  In [sizeof(PetscInt)*n] the [PetscInt] [n] is converted to it and
    the product is reduced modulo [2^64]. *)
Definition size_t (z : Z) : Z := z mod 2 ^ 64.
Arguments size_t : simpl never.

Section Arith.
Variable w : PetscIntKind.

Definition add (a b : Z) : Z := wrap w (a + b).
Definition sub (a b : Z) : Z := wrap w (a - b).
Definition mul (a b : Z) : Z := wrap w (a * b).
(** [/] of C truncates toward zero. *)
Definition div (a b : Z) : Z := wrap w (Z.quot a b).
Definition shl (a n : Z) : Z := wrap w (Z.shiftl a n).
(** [>>] on a signed value is an arithmetic shift. *)
Definition shr (a n : Z) : Z := Z.shiftr a n.
End Arith.

(** Number of set bits among the positions below [n]. *)
Fixpoint count_bits (n : nat) (x : Z) : nat :=
  match n with
  | O => O
  | S m => (if Z.testbit x (Z.of_nat m) then 1 else 0) + count_bits m x
  end%nat.

(** [__popc] / [__popcll]: population count of the machine word. *)
Definition CUDA_POPCOUNT (w : PetscIntKind) (x : Z) : Z :=
  Z.of_nat (count_bits (Z.to_nat (bits w)) x).

(** [#define CUDA_PARITY(x) (CUDA_POPCOUNT(x)&1)] *)
Definition CUDA_PARITY (w : PetscIntKind) (x : Z) : Z :=
  Z.land (CUDA_POPCOUNT w x) 1.

(** ** Array reads

    A device array is a list; a read outside of it is a fault, recorded
    with the offending index. *)

Inductive outcome (A : Type) : Type :=
| Done (a : A)
| Fault (i : Z).
Arguments Done {A} a.
Arguments Fault {A} i.

Definition bind {A B} (m : outcome A) (f : A -> outcome B) : outcome B :=
  match m with
  | Done a => f a
  | Fault i => Fault i
  end.

Notation "x <- m ;; k" := (bind m (fun x => k))
  (at level 61, m at next level, right associativity).

Definition rd (arr : list Z) (i : Z) : outcome Z :=
  if i <? 0 then Fault i
  else match nth_error arr (Z.to_nat i) with
       | Some v => Done v
       | None => Fault i
       end.

(** ** Binomial coefficients (Pascal's rule) *)

Fixpoint binom (n k : nat) : Z :=
  match n, k with
  | _, O => 1
  | O, S _ => 0
  | S n', S k' => binom n' k' + binom n' k
  end.

Definition choose (n k : Z) : Z :=
  if (n <? 0) || (k <? 0) then 0 else binom (Z.to_nat n) (Z.to_nat k).

(** ** src/dynamite/_backend/bcuda_impl.cu *)

Module BcudaImpl.

Module data_Parity.
Record t := { L : Z; space : Z }.
End data_Parity.

Section Parity.
Variable w : PetscIntKind.

(** [#define PARITY_BIT(L) (1<<((L)-1))] : the literal [1] is an [int],
    so the shift is computed on 32 bits whatever [PetscInt] is. *)
Definition PARITY_BIT (L : Z) : Z := wrap_bits 32 (Z.shiftl 1 (sub w L 1)).

(** [#define PARITY_MASK(L) (PARITY_BIT(L)-1)] *)
Definition PARITY_MASK (L : Z) : Z := wrap_bits 32 (PARITY_BIT L - 1).

Definition S2I_CUDA_Parity (state : Z) (data : data_Parity.t) : Z :=
  Z.land state (PARITY_MASK (data_Parity.L data)).

(** [idx | (( (data->space)^__popcll(idx)&1 ) << (data->L - 1) )];
    [&] binds tighter than [^]. *)
Definition I2S_CUDA_Parity (idx : Z) (data : data_Parity.t) : Z :=
  Z.lor idx
    (shl w (Z.lxor (data_Parity.space data) (Z.land (CUDA_POPCOUNT w idx) 1))
           (sub w (data_Parity.L data) 1)).
End Parity.

(** *** Auto, dense reverse table *)

Module data_Auto.
Record t := { dim : Z; rdim : Z; state_map : list Z; state_rmap : list Z }.
End data_Auto.

Definition S2I_CUDA_Auto (state : Z) (data : data_Auto.t) : outcome Z :=
  rd (data_Auto.state_rmap data) state.

Definition I2S_CUDA_Auto (idx : Z) (data : data_Auto.t) : outcome Z :=
  rd (data_Auto.state_map data) idx.

End BcudaImpl.

(** ** src/unnamed/part_000 *)

Module Part000.

Module data_Parity.
Record t := { L : Z; space : Z }.
End data_Parity.

Module data_SpinConserve.
Record t := { L : Z; k : Z; ld_nchoosek : Z; nchoosek : list Z }.
End data_SpinConserve.

Module data_Auto.
Record t := { dim : Z;
              state_map : list Z;
              rmap_indices : list Z;
              rmap_states : list Z }.
End data_Auto.

Section Codecs.
Variable w : PetscIntKind.

(** *** Parity *)

Definition S2I_CUDA_Parity (state : Z) (data : data_Parity.t) : Z :=
  if CUDA_PARITY w state =? data_Parity.space data
  then shr state 1
  else (-1).

Definition I2S_CUDA_Parity (idx : Z) (data : data_Parity.t) : Z :=
  Z.lor (shl w idx 1) (Z.lxor (CUDA_PARITY w idx) (data_Parity.space data)).

(** *** SpinConserve *)

(** One pass of the body of [for (n=0; n<data->L; ++n)]; [fuel] is the
    number of iterations that remain, [data->L - n]. *)
Fixpoint S2I_loop_SpinConserve (data : data_SpinConserve.t) (fuel : nat)
         (n k idx state : Z) : outcome Z :=
  match fuel with
  | O => Done idx
  | S fuel' =>
      ki <- (if Z.land state 1 =? 0 then Done (k, idx)
             else
               let k := add w k 1 in
               if k <=? n then
                 c <- rd (data_SpinConserve.nchoosek data)
                         (add w (mul w k (data_SpinConserve.ld_nchoosek data)) n) ;;
                 Done (k, add w idx c)
               else Done (k, idx)) ;;
      let '(k, idx) := ki in
      let state := shr state 1 in
      if state =? 0 then Done idx
      else S2I_loop_SpinConserve data fuel' (add w n 1) k idx state
  end.

Definition S2I_CUDA_SpinConserve (state : Z) (data : data_SpinConserve.t)
  : outcome Z :=
  if negb (shr state (data_SpinConserve.L data) =? 0) then Done (-1)
  else if negb (CUDA_POPCOUNT w state =? data_SpinConserve.k data) then Done (-1)
  else S2I_loop_SpinConserve data (Z.to_nat (data_SpinConserve.L data)) 0 0 0 state.

(** The same loop without [if (state == 0) return idx;]: every one of
    the [data->L] iterations is run. *)
Fixpoint S2I_loop_SpinConserve_full (data : data_SpinConserve.t) (fuel : nat)
         (n k idx state : Z) : outcome Z :=
  match fuel with
  | O => Done idx
  | S fuel' =>
      ki <- (if Z.land state 1 =? 0 then Done (k, idx)
             else
               let k := add w k 1 in
               if k <=? n then
                 c <- rd (data_SpinConserve.nchoosek data)
                         (add w (mul w k (data_SpinConserve.ld_nchoosek data)) n) ;;
                 Done (k, add w idx c)
               else Done (k, idx)) ;;
      let '(k, idx) := ki in
      let state := shr state 1 in
      S2I_loop_SpinConserve_full data fuel' (add w n 1) k idx state
  end.

Definition S2I_CUDA_SpinConserve_full (state : Z) (data : data_SpinConserve.t)
  : outcome Z :=
  if negb (shr state (data_SpinConserve.L data) =? 0) then Done (-1)
  else if negb (CUDA_POPCOUNT w state =? data_SpinConserve.k data) then Done (-1)
  else S2I_loop_SpinConserve_full data (Z.to_nat (data_SpinConserve.L data)) 0 0 0 state.

(** Body of [for (n=data->L; n>0; --n)]; [fuel] is [n]. *)
Fixpoint I2S_loop_SpinConserve (data : data_SpinConserve.t) (fuel : nat)
         (n k idx state : Z) : outcome Z :=
  match fuel with
  | O => Done state
  | S fuel' =>
      let state := shl w state 1 in
      current <- (if k >? sub w n 1 then Done 0
                  else rd (data_SpinConserve.nchoosek data)
                          (sub w (add w (mul w k (data_SpinConserve.ld_nchoosek data)) n) 1)) ;;
      if idx >=? current
      then I2S_loop_SpinConserve data fuel' (sub w n 1) (sub w k 1)
             (sub w idx current) (Z.lor state 1)
      else I2S_loop_SpinConserve data fuel' (sub w n 1) k idx state
  end.

Definition I2S_CUDA_SpinConserve (idx : Z) (data : data_SpinConserve.t)
  : outcome Z :=
  I2S_loop_SpinConserve data (Z.to_nat (data_SpinConserve.L data))
    (data_SpinConserve.L data) (data_SpinConserve.k data) idx 0.

(** *** Auto *)

(** What one pass of the body of [while (left <= right)] does. *)
Variant search_step :=
| Return (v : Z)
| Continue (left right : Z)
| BadRead (i : Z).

Definition S2I_step_Auto (state : Z) (data : data_Auto.t) (left right : Z)
  : search_step :=
  let mid := add w left (div w (sub w right left) 2) in
  match rd (data_Auto.rmap_states data) mid with
  | Fault i => BadRead i
  | Done v =>
      if v =? state then
        match rd (data_Auto.rmap_indices data) mid with
        | Fault i => BadRead i
        | Done r => Return r
        end
      else if v <? state then Continue (add w mid 1) right
      else Continue left (sub w mid 1)
  end.

(** The [while] loop; [None] when [fuel] passes were not enough. *)
Fixpoint S2I_while_Auto (fuel : nat) (state : Z) (data : data_Auto.t)
         (left right : Z) : option (outcome Z) :=
  if left <=? right then
    match fuel with
    | O => None
    | S fuel' =>
        match S2I_step_Auto state data left right with
        | Return v => Some (Done v)
        | BadRead i => Some (Fault i)
        | Continue left' right' => S2I_while_Auto fuel' state data left' right'
        end
    end
  else Some (Done (-1)).

Definition S2I_CUDA_Auto (fuel : nat) (state : Z) (data : data_Auto.t)
  : option (outcome Z) :=
  S2I_while_Auto fuel state data 0 (data_Auto.dim data).

Definition I2S_CUDA_Auto (idx : Z) (data : data_Auto.t) : outcome Z :=
  rd (data_Auto.state_map data) idx.
End Codecs.

(** *** Device transfer

    The CUDA runtime is a state: the device allocations that are live
    and the error codes that the coming runtime calls will return (an
    exhausted list means success).  A routine is a state transformer that
    either yields a value or leaves early with an error code, which is what
    [CHKERRCUDA] and [CHKERRQ] do when the code is not zero (the two macros
    come from the PETSc headers; the code kept here is the one of the
    failed call). *)

Record runtime := { live : list (Z * Z);   (* address, size in bytes *)
                    fresh : Z;
                    pending : list Z }.

Variant result (A : Type) : Type :=
| Ok (a : A)
| Err (code : Z).
Arguments Ok {A} a.
Arguments Err {A} code.

Definition M (A : Type) : Type := runtime -> result A * runtime.

Definition ret {A} (a : A) : M A := fun r => (Ok a, r).

Definition mbind {A B} (m : M A) (f : A -> M B) : M B :=
  fun r => match m r with
           | (Ok a, r') => f a r'
           | (Err c, r') => (Err c, r')
           end.

Notation "'do' x <- m ; k" := (mbind m (fun x => k))
  (at level 10, x name, m at level 100, k at level 200).

(** The error code of the next runtime call. *)
Definition next_code (r : runtime) : Z * runtime :=
  match pending r with
  | [] => (0, r)
  | c :: cs => (c, {| live := live r; fresh := fresh r; pending := cs |})
  end.

(** [cudaMalloc(&p, size)]: the error code and the pointer written to [p]. *)
Definition cudaMalloc (size : Z) : M (Z * Z) :=
  fun r =>
    let '(c, r) := next_code r in
    if c =? 0
    then (Ok (c, fresh r),
          {| live := (fresh r, size) :: live r;
             fresh := fresh r + 1;
             pending := pending r |})
    else (Ok (c, 0), r).

(** [cudaMemcpy]: only its error code matters here. *)
Definition cudaMemcpy : M Z :=
  fun r => let '(c, r) := next_code r in (Ok c, r).

Definition PetscMemcpy : M Z :=
  fun r => let '(c, r) := next_code r in (Ok c, r).

Definition cudaFree (p : Z) : M Z :=
  fun r =>
    let '(c, r) := next_code r in
    if c =? 0
    then (Ok c,
          {| live := filter (fun a => negb (fst a =? p)) (live r);
             fresh := fresh r;
             pending := pending r |})
    else (Ok c, r).

Definition CHKERRCUDA (err : Z) : M unit :=
  fun r => if err =? 0 then (Ok tt, r) else (Err err, r).

Definition CHKERRQ (ierr : Z) : M unit :=
  fun r => if ierr =? 0 then (Ok tt, r) else (Err ierr, r).

Section Device.
Variable w : PetscIntKind.
(** [sizeof(data_SpinConserve)] and [sizeof(data_Auto)]: the structures
    are declared in bcuda_impl.h. *)
Variables sizeof_data_SpinConserve sizeof_data_Auto : Z.

Definition sizeof_PetscInt : Z := bits w / 8.

(** The value is the device address stored in [*out_p]. *)
Definition CopySubspaceData_CUDA_SpinConserve (in_ : data_SpinConserve.t) : M Z :=
  let len_nchoosek :=
    mul w (add w (data_SpinConserve.k in_) 1) (data_SpinConserve.ld_nchoosek in_) in
  do ierr <- PetscMemcpy; do _ <- CHKERRQ ierr;
  do nchoosek <- cudaMalloc (size_t (sizeof_PetscInt * len_nchoosek));
  do _ <- CHKERRCUDA (fst nchoosek);
  do err <- cudaMemcpy; do _ <- CHKERRCUDA err;
  do out <- cudaMalloc sizeof_data_SpinConserve;
  do _ <- CHKERRCUDA (fst out);
  do err <- cudaMemcpy; do _ <- CHKERRCUDA err;
  ret (snd out).

Definition CopySubspaceData_CUDA_Auto (in_ : data_Auto.t) : M Z :=
  do ierr <- PetscMemcpy; do _ <- CHKERRQ ierr;
  do state_map <- cudaMalloc (size_t (sizeof_PetscInt * data_Auto.dim in_));
  do _ <- CHKERRCUDA (fst state_map);
  do err <- cudaMemcpy; do _ <- CHKERRCUDA err;
  do rmap_indices <- cudaMalloc (size_t (sizeof_PetscInt * data_Auto.dim in_));
  do _ <- CHKERRCUDA (fst rmap_indices);
  do err <- cudaMemcpy; do _ <- CHKERRCUDA err;
  do rmap_states <- cudaMalloc (size_t (sizeof_PetscInt * data_Auto.dim in_));
  do _ <- CHKERRCUDA (fst rmap_states);
  do err <- cudaMemcpy; do _ <- CHKERRCUDA err;
  do out <- cudaMalloc sizeof_data_Auto;
  do _ <- CHKERRCUDA (fst out);
  do err <- cudaMemcpy; do _ <- CHKERRCUDA err;
  ret (snd out).
End Device.

End Part000.

(** ** Device transfer and teardown, with the contents of device memory

    [DestroySubspaceData_CUDA_*] reads the device structure back to find
    the pointers it has to free, so the store keeps, beside the runtime of
    [Part000], the words that [cudaMemcpy] wrote at each device address.  A
    structure is the list of its fields, pointers included; the structures
    are declared in bcuda_impl.h, the order of the fields here is the one
    of their use in the code. *)

Module Transfer.

Record store := { rt : Part000.runtime; mem : list (Z * list Z) }.

Definition T (A : Type) : Type := store -> Part000.result A * store.

Definition tret {A} (a : A) : T A := fun s => (Part000.Ok a, s).

Definition tbind {A B} (m : T A) (f : A -> T B) : T B :=
  fun s => match m s with
           | (Part000.Ok a, s') => f a s'
           | (Part000.Err c, s') => (Part000.Err c, s')
           end.

Notation "'run' x <- m ; k" := (tbind m (fun x => k))
  (at level 10, x name, m at level 100, k at level 200).

(** A call of the runtime of [Part000], which leaves the memory alone. *)
Definition lift {A} (m : Part000.M A) : T A :=
  fun s => let (a, r) := m (rt s) in (a, {| rt := r; mem := mem s |}).

(** The words last written at address [p]. *)
Definition load (m : list (Z * list Z)) (p : Z) : list Z :=
  match find (fun b => fst b =? p) m with
  | Some b => snd b
  | None => []
  end.

Definition cudaMalloc (size : Z) : T (Z * Z) := lift (Part000.cudaMalloc size).

(** [cudaMemcpy(dst, src, ..., cudaMemcpyHostToDevice)] *)
Definition cudaMemcpy_HostToDevice (dst : Z) (src : list Z) : T Z :=
  fun s =>
    let '(c, r) := Part000.next_code (rt s) in
    if c =? 0
    then (Part000.Ok c, {| rt := r; mem := (dst, src) :: mem s |})
    else (Part000.Ok c, {| rt := r; mem := mem s |}).

(** [cudaMemcpy(&cpu_data, src, ..., cudaMemcpyDeviceToHost)]: the error
    code and the words read. *)
Definition cudaMemcpy_DeviceToHost (src : Z) : T (Z * list Z) :=
  fun s =>
    let '(c, r) := Part000.next_code (rt s) in
    if c =? 0
    then (Part000.Ok (c, load (mem s) src), {| rt := r; mem := mem s |})
    else (Part000.Ok (c, []), {| rt := r; mem := mem s |}).

(** [cudaFree(p)]: the block is released and its contents are gone. *)
Definition cudaFree (p : Z) : T Z :=
  fun s =>
    match Part000.cudaFree p (rt s) with
    | (Part000.Ok c, r) =>
        (Part000.Ok c,
         {| rt := r;
            mem := if c =? 0
                   then filter (fun b => negb (fst b =? p)) (mem s)
                   else mem s |})
    | (Part000.Err c, r) => (Part000.Err c, {| rt := r; mem := mem s |})
    end.

Definition PetscMemcpy : T Z := lift Part000.PetscMemcpy.
Definition CHKERRCUDA (err : Z) : T unit := lift (Part000.CHKERRCUDA err).
Definition CHKERRQ (ierr : Z) : T unit := lift (Part000.CHKERRQ ierr).

Section Routines.
Variable w : PetscIntKind.
(** [sizeof] of the four structures. *)
Variables sizeof_data_Full sizeof_data_Parity : Z.
Variables sizeof_data_SpinConserve sizeof_data_Auto : Z.

(** *** Full and Parity (the same text in both files)

    The structure has no pointer field: it is copied as it is. *)

Definition CopySubspaceData_CUDA_Full (in_ : list Z) : T Z :=
  run out <- cudaMalloc sizeof_data_Full;
  run _ <- CHKERRCUDA (fst out);
  run err <- cudaMemcpy_HostToDevice (snd out) in_;
  run _ <- CHKERRCUDA err;
  tret (snd out).

Definition DestroySubspaceData_CUDA_Full (data : Z) : T unit :=
  run err <- cudaFree data;
  run _ <- CHKERRCUDA err;
  tret tt.

Definition CopySubspaceData_CUDA_Parity (in_ : Part000.data_Parity.t) : T Z :=
  run out <- cudaMalloc sizeof_data_Parity;
  run _ <- CHKERRCUDA (fst out);
  run err <- cudaMemcpy_HostToDevice (snd out)
               [Part000.data_Parity.L in_; Part000.data_Parity.space in_];
  run _ <- CHKERRCUDA err;
  tret (snd out).

Definition DestroySubspaceData_CUDA_Parity (data : Z) : T unit :=
  run err <- cudaFree data;
  run _ <- CHKERRCUDA err;
  tret tt.

(** *** SpinConserve (part_000) *)

Definition CopySubspaceData_CUDA_SpinConserve (in_ : Part000.data_SpinConserve.t)
  : T Z :=
  let len_nchoosek :=
    mul w (add w (Part000.data_SpinConserve.k in_) 1)
          (Part000.data_SpinConserve.ld_nchoosek in_) in
  run ierr <- PetscMemcpy;
  run _ <- CHKERRQ ierr;
  run nchoosek <- cudaMalloc (size_t (Part000.sizeof_PetscInt w * len_nchoosek));
  run _ <- CHKERRCUDA (fst nchoosek);
  run err <- cudaMemcpy_HostToDevice (snd nchoosek)
               (firstn (Z.to_nat len_nchoosek)
                       (Part000.data_SpinConserve.nchoosek in_));
  run _ <- CHKERRCUDA err;
  run out <- cudaMalloc sizeof_data_SpinConserve;
  run _ <- CHKERRCUDA (fst out);
  run err <- cudaMemcpy_HostToDevice (snd out)
               [Part000.data_SpinConserve.L in_;
                Part000.data_SpinConserve.k in_;
                Part000.data_SpinConserve.ld_nchoosek in_;
                snd nchoosek];
  run _ <- CHKERRCUDA err;
  tret (snd out).

Definition DestroySubspaceData_CUDA_SpinConserve (data : Z) : T unit :=
  run cpu_data <- cudaMemcpy_DeviceToHost data;
  run _ <- CHKERRCUDA (fst cpu_data);
  run err <- cudaFree (nth 3 (snd cpu_data) 0);
  run _ <- CHKERRCUDA err;
  run err <- cudaFree data;
  run _ <- CHKERRCUDA err;
  tret tt.


(** *** Auto, sorted reverse map (part_000) *)

Definition CopySubspaceData_CUDA_Auto (in_ : Part000.data_Auto.t) : T Z :=
  let n := Z.to_nat (Part000.data_Auto.dim in_) in
  run ierr <- PetscMemcpy;
  run _ <- CHKERRQ ierr;
  run state_map <-
    cudaMalloc (size_t (Part000.sizeof_PetscInt w * Part000.data_Auto.dim in_));
  run _ <- CHKERRCUDA (fst state_map);
  run err <- cudaMemcpy_HostToDevice (snd state_map)
               (firstn n (Part000.data_Auto.state_map in_));
  run _ <- CHKERRCUDA err;
  run rmap_indices <-
    cudaMalloc (size_t (Part000.sizeof_PetscInt w * Part000.data_Auto.dim in_));
  run _ <- CHKERRCUDA (fst rmap_indices);
  run err <- cudaMemcpy_HostToDevice (snd rmap_indices)
               (firstn n (Part000.data_Auto.rmap_indices in_));
  run _ <- CHKERRCUDA err;
  run rmap_states <-
    cudaMalloc (size_t (Part000.sizeof_PetscInt w * Part000.data_Auto.dim in_));
  run _ <- CHKERRCUDA (fst rmap_states);
  run err <- cudaMemcpy_HostToDevice (snd rmap_states)
               (firstn n (Part000.data_Auto.rmap_states in_));
  run _ <- CHKERRCUDA err;
  run out <- cudaMalloc sizeof_data_Auto;
  run _ <- CHKERRCUDA (fst out);
  run err <- cudaMemcpy_HostToDevice (snd out)
               [Part000.data_Auto.dim in_; snd state_map; snd rmap_indices;
                snd rmap_states];
  run _ <- CHKERRCUDA err;
  tret (snd out).

Definition DestroySubspaceData_CUDA_Auto (data : Z) : T unit :=
  run cpu_data <- cudaMemcpy_DeviceToHost data;
  run _ <- CHKERRCUDA (fst cpu_data);
  run err <- cudaFree (nth 1 (snd cpu_data) 0);
  run _ <- CHKERRCUDA err;
  run err <- cudaFree (nth 2 (snd cpu_data) 0);
  run _ <- CHKERRCUDA err;
  run err <- cudaFree (nth 3 (snd cpu_data) 0);
  run _ <- CHKERRCUDA err;
  run err <- cudaFree data;
  run _ <- CHKERRCUDA err;
  tret tt.

(** *** Auto, dense reverse table (bcuda_impl.cu) *)

Definition CopySubspaceData_CUDA_Auto_dense (in_ : BcudaImpl.data_Auto.t) : T Z :=
  run ierr <- PetscMemcpy;
  run _ <- CHKERRQ ierr;
  run state_map <-
    cudaMalloc (size_t (Part000.sizeof_PetscInt w * BcudaImpl.data_Auto.dim in_));
  run _ <- CHKERRCUDA (fst state_map);
  run err <- cudaMemcpy_HostToDevice (snd state_map)
               (firstn (Z.to_nat (BcudaImpl.data_Auto.dim in_))
                       (BcudaImpl.data_Auto.state_map in_));
  run _ <- CHKERRCUDA err;
  run state_rmap <-
    cudaMalloc (size_t (Part000.sizeof_PetscInt w * BcudaImpl.data_Auto.rdim in_));
  run _ <- CHKERRCUDA (fst state_rmap);
  run err <- cudaMemcpy_HostToDevice (snd state_rmap)
               (firstn (Z.to_nat (BcudaImpl.data_Auto.rdim in_))
                       (BcudaImpl.data_Auto.state_rmap in_));
  run _ <- CHKERRCUDA err;
  run out <- cudaMalloc sizeof_data_Auto;
  run _ <- CHKERRCUDA (fst out);
  run err <- cudaMemcpy_HostToDevice (snd out)
               [BcudaImpl.data_Auto.dim in_; BcudaImpl.data_Auto.rdim in_;
                snd state_map; snd state_rmap];
  run _ <- CHKERRCUDA err;
  tret (snd out).

Definition DestroySubspaceData_CUDA_Auto_dense (data : Z) : T unit :=
  run cpu_data <- cudaMemcpy_DeviceToHost data;
  run _ <- CHKERRCUDA (fst cpu_data);
  run err <- cudaFree (nth 2 (snd cpu_data) 0);
  run _ <- CHKERRCUDA err;
  run err <- cudaFree (nth 3 (snd cpu_data) 0);
  run _ <- CHKERRCUDA err;
  run err <- cudaFree data;
  run _ <- CHKERRCUDA err;
  tret tt.

End Routines.

End Transfer.

(** ** MatCreateVecs_GPU (the same text in both files)

    The PETSc objects are a state: the vectors created so far, with the
    global size given by [VecSetSizes] and whether [VecSetFromOptions] has
    configured them, and the error codes of the coming PETSc calls, as for
    the CUDA runtime.  A matrix is its global sizes, rows then columns. *)

Module MatVecs.

Record vec := { global_size : option Z; from_options : bool }.

Record petsc := { vecs : list (Z * vec); next_vec : Z; pending : list Z }.

Definition P (A : Type) : Type := petsc -> Part000.result A * petsc.

Definition pret {A} (a : A) : P A := fun s => (Part000.Ok a, s).

Definition pbind {A B} (m : P A) (f : A -> P B) : P B :=
  fun s => match m s with
           | (Part000.Ok a, s') => f a s'
           | (Part000.Err c, s') => (Part000.Err c, s')
           end.

Notation "'call' x <- m ; k" := (pbind m (fun x => k))
  (at level 10, x name, m at level 100, k at level 200).

Definition next_code (s : petsc) : Z * petsc :=
  match pending s with
  | [] => (0, s)
  | c :: cs => (c, {| vecs := vecs s; next_vec := next_vec s; pending := cs |})
  end.

(** The vector behind a handle. *)
Definition get_vec (s : petsc) (v : Z) : option vec :=
  match find (fun b => fst b =? v) (vecs s) with
  | Some b => Some (snd b)
  | None => None
  end.

Definition set_vec (s : petsc) (v : Z) (x : vec) : petsc :=
  {| vecs := (v, x) :: vecs s; next_vec := next_vec s; pending := pending s |}.

(** [MatGetSize(mat, &M, &N)] *)
Definition MatGetSize (mat : Z * Z) : P (Z * (Z * Z)) :=
  fun s => let '(c, s) := next_code s in
           if c =? 0 then (Part000.Ok (c, mat), s) else (Part000.Ok (c, (0, 0)), s).

(** [VecCreate(comm, v)]: the error code and the handle written to [*v]. *)
Definition VecCreate : P (Z * Z) :=
  fun s => let '(c, s) := next_code s in
           if c =? 0
           then (Part000.Ok (c, next_vec s),
                 {| vecs := (next_vec s, {| global_size := None; from_options := false |})
                            :: vecs s;
                    next_vec := next_vec s + 1;
                    pending := pending s |})
           else (Part000.Ok (c, 0), s).

(** [VecSetSizes(v, PETSC_DECIDE, n)] *)
Definition VecSetSizes (v n : Z) : P Z :=
  fun s => let '(c, s) := next_code s in
           if c =? 0
           then match get_vec s v with
                | Some x =>
                    (Part000.Ok c,
                     set_vec s v {| global_size := Some n;
                                    from_options := from_options x |})
                | None => (Part000.Ok c, s)
                end
           else (Part000.Ok c, s).

(** [VecSetFromOptions(v)] *)
Definition VecSetFromOptions (v : Z) : P Z :=
  fun s => let '(c, s) := next_code s in
           if c =? 0
           then match get_vec s v with
                | Some x =>
                    (Part000.Ok c,
                     set_vec s v {| global_size := global_size x;
                                    from_options := true |})
                | None => (Part000.Ok c, s)
                end
           else (Part000.Ok c, s).

Definition CHKERRQ (ierr : Z) : P unit :=
  fun s => if ierr =? 0 then (Part000.Ok tt, s) else (Part000.Err ierr, s).

(** [right] and [left] tell whether the pointer is not null; the value is
    the pair of handles written to [*right] and [*left].  The code of
    [VecSetFromOptions] is assigned to [ierr] and not looked at. *)
Definition MatCreateVecs_GPU (mat : Z * Z) (right left : bool)
  : P (option Z * option Z) :=
  call sz <- MatGetSize mat;
  call _ <- CHKERRQ (fst sz);
  let M := fst (snd sz) in
  let N := snd (snd sz) in
  call r <- (if right then
               call v <- VecCreate;
               call _ <- CHKERRQ (fst v);
               call ierr <- VecSetSizes (snd v) N;
               call _ <- CHKERRQ ierr;
               call ierr <- VecSetFromOptions (snd v);
               pret (Some (snd v))
             else pret None);
  call l <- (if left then
               call v <- VecCreate;
               call _ <- CHKERRQ (fst v);
               call ierr <- VecSetSizes (snd v) M;
               call _ <- CHKERRQ ierr;
               call ierr <- VecSetFromOptions (snd v);
               pret (Some (snd v))
             else pret None);
  pret (r, l).

End MatVecs.

(** * Specification-level notions *)

(** Rank of the [n] low bits of [s] in the combinatorial number system:
    the set bit at position [m] that is the [j]-th from the bottom
    contributes [C(m, j)]. *)
Fixpoint rank (n : nat) (s : Z) : Z :=
  match n with
  | O => 0
  | S m => rank m s
           + (if Z.testbit s (Z.of_nat m) then binom m (count_bits (S m) s) else 0)
  end.

(** The consumption contract of the binomial table:
    [nchoosek[i*ld_nchoosek + n] == C(n, i)] for the rows [i <= k] and the
    columns [n < L] that the two loops read. *)
Definition table_ok (d : Part000.data_SpinConserve.t) : Prop :=
  forall i n,
    0 <= i <= Part000.data_SpinConserve.k d ->
    0 <= n < Part000.data_SpinConserve.L d ->
    rd (Part000.data_SpinConserve.nchoosek d)
       (i * Part000.data_SpinConserve.ld_nchoosek d + n) = Done (choose n i).

(** A SpinConserve structure whose sites fit the non-negative range of
    [PetscInt], with a table that is addressable by a [PetscInt] and obeys
    the contract. *)
Definition wf_SpinConserve (w : PetscIntKind) (d : Part000.data_SpinConserve.t)
  : Prop :=
  0 <= Part000.data_SpinConserve.L d < bits w
  /\ 0 <= Part000.data_SpinConserve.k d
  /\ Z.of_nat (length (Part000.data_SpinConserve.nchoosek d)) <= PetscInt_max w
  /\ table_ok d.

(** The parity sector: the [L]-bit states whose population count has
    parity [space]. *)
Definition in_sector (w : PetscIntKind) (L space s : Z) : Prop :=
  0 <= s < 2 ^ L /\ CUDA_POPCOUNT w s mod 2 = space.

(** The first [j] runtime calls succeed and the next one fails with
    code [e]. *)
Definition fails_at (r : Part000.runtime) (j : nat) (e : Z) : Part000.runtime :=
  {| Part000.live := Part000.live r;
     Part000.fresh := Part000.fresh r;
     Part000.pending := repeat 0 j ++ [e] |}.

(** Example data: four sites of weight two, with its binomial table;
    a reverse map of three states; an empty reverse map. *)
Definition d42 : Part000.data_SpinConserve.t :=
  {| Part000.data_SpinConserve.L := 4;
     Part000.data_SpinConserve.k := 2;
     Part000.data_SpinConserve.ld_nchoosek := 4;
     Part000.data_SpinConserve.nchoosek := [1;1;1;1; 0;1;2;3; 0;0;1;3] |}.

Definition auto_159 : Part000.data_Auto.t :=
  {| Part000.data_Auto.dim := 3;
     Part000.data_Auto.state_map := [1; 5; 9];
     Part000.data_Auto.rmap_indices := [0; 1; 2];
     Part000.data_Auto.rmap_states := [1; 5; 9] |}.

Definition auto_empty : Part000.data_Auto.t :=
  {| Part000.data_Auto.dim := 0;
     Part000.data_Auto.state_map := [];
     Part000.data_Auto.rmap_indices := [];
     Part000.data_Auto.rmap_states := [] |}.

(** A well-formed sorted reverse map: [dim] entries in each array, the
    states strictly increasing. *)
Definition wf_Auto (w : PetscIntKind) (d : Part000.data_Auto.t) : Prop :=
  0 <= Part000.data_Auto.dim d <= PetscInt_max w
  /\ Z.of_nat (length (Part000.data_Auto.rmap_states d)) = Part000.data_Auto.dim d
  /\ Z.of_nat (length (Part000.data_Auto.rmap_indices d)) = Part000.data_Auto.dim d
  /\ StronglySorted Z.lt (Part000.data_Auto.rmap_states d).

(** The reverse map is the inverse of [state_map]. *)
Definition rmap_inverts (d : Part000.data_Auto.t) : Prop :=
  (forall p s i,
      rd (Part000.data_Auto.rmap_states d) p = Done s ->
      rd (Part000.data_Auto.rmap_indices d) p = Done i ->
      rd (Part000.data_Auto.state_map d) i = Done s)
  /\ (forall i s,
      rd (Part000.data_Auto.state_map d) i = Done s ->
      exists p, rd (Part000.data_Auto.rmap_states d) p = Done s
                /\ rd (Part000.data_Auto.rmap_indices d) p = Done i).

(** Example data: a reverse map whose indices are not in order. *)
Definition auto_perm : Part000.data_Auto.t :=
  {| Part000.data_Auto.dim := 3;
     Part000.data_Auto.state_map := [9; 1; 5];
     Part000.data_Auto.rmap_indices := [1; 2; 0];
     Part000.data_Auto.rmap_states := [1; 5; 9] |}.

(** The same map of three entries with a word behind each of the reverse
    arrays, as device memory may hold. *)
Definition auto_pad : Part000.data_Auto.t :=
  {| Part000.data_Auto.dim := 3;
     Part000.data_Auto.state_map := [1; 5; 9];
     Part000.data_Auto.rmap_indices := [0; 1; 2; 77];
     Part000.data_Auto.rmap_states := [1; 5; 9; 10] |}.

(** A Parity structure of bcuda_impl.cu on 33 sites. *)
Definition parity_33 : BcudaImpl.data_Parity.t :=
  {| BcudaImpl.data_Parity.L := 33; BcudaImpl.data_Parity.space := 0 |}.

(** No coming runtime call fails. *)
Definition no_failure (r : Part000.runtime) : Prop :=
  Forall (fun c => c = 0) (Part000.pending r).

(** The allocator hands out addresses above those in use. *)
Definition fresh_above (r : Part000.runtime) : Prop :=
  Forall (fun a => fst a < Part000.fresh r) (Part000.live r).

(** Example data: a dense reverse table, and a store with one earlier
    allocation. *)
Definition auto_dense : BcudaImpl.data_Auto.t :=
  {| BcudaImpl.data_Auto.dim := 2;
     BcudaImpl.data_Auto.rdim := 4;
     BcudaImpl.data_Auto.state_map := [1; 2];
     BcudaImpl.data_Auto.state_rmap := [-1; 0; 1; -1] |}.

Definition store_0 : Transfer.store :=
  {| Transfer.rt := {| Part000.live := [(7, 16)];
                       Part000.fresh := 100;
                       Part000.pending := [0; 0] |};
     Transfer.mem := [] |}.

(** * Properties *)

(** ** Machine integers *)

Lemma bits_lower (w : PetscIntKind) : 32 <= bits w.
Proof. destruct w; simpl; lia. Qed.

Lemma pow2_bits_split (w : PetscIntKind) :
  2 ^ bits w = 2 * 2 ^ (bits w - 1).
Proof.
  pose proof (bits_lower w).
  rewrite <- Z.pow_succ_r by lia. f_equal. lia.
Qed.

Lemma wrap_id (w : PetscIntKind) (z : Z) :
  is_PetscInt w z -> wrap w z = z.
Proof.
  unfold is_PetscInt, PetscInt_min, PetscInt_max, wrap, wrap_bits.
  intros H. rewrite pow2_bits_split.
  rewrite Z.mod_small; lia.
Qed.

Lemma pow2_le_max (w : PetscIntKind) (n : Z) :
  0 <= n < bits w -> 2 ^ n <= 2 ^ (bits w - 1).
Proof. intros H. apply Z.pow_le_mono_r; lia. Qed.

Lemma is_PetscInt_below (w : PetscIntKind) (n z : Z) :
  0 <= n < bits w -> 0 <= z < 2 ^ n -> is_PetscInt w z.
Proof.
  intros Hn Hz. pose proof (pow2_le_max w n Hn).
  unfold is_PetscInt, PetscInt_min, PetscInt_max.
  assert (0 < 2 ^ (bits w - 1)) by (apply Z.pow_pos_nonneg; lia).
  lia.
Qed.

Lemma is_PetscInt_small (w : PetscIntKind) (z : Z) :
  - 2 ^ 31 <= z < 2 ^ 31 -> is_PetscInt w z.
Proof.
  intros Hz. unfold is_PetscInt, PetscInt_min, PetscInt_max.
  assert (2 ^ 31 <= 2 ^ (bits w - 1))
    by (apply Z.pow_le_mono_r; pose proof (bits_lower w); lia).
  lia.
Qed.

(** ** Bits *)

Lemma land_1_testbit (x : Z) :
  (Z.land x 1 =? 0) = negb (Z.testbit x 0).
Proof.
  change 1 with (Z.ones 1). rewrite Z.land_ones by lia.
  change (2 ^ 1) with 2. rewrite <- Z.bit0_mod.
  destruct (Z.testbit x 0); reflexivity.
Qed.


Lemma testbit_high (n x i : Z) :
  0 <= n -> 0 <= x < 2 ^ n -> n <= i -> Z.testbit x i = false.
Proof.
  intros Hn Hx Hi.
  rewrite <- (Z.mod_small x (2 ^ n)) by assumption.
  apply Z.mod_pow2_bits_high. lia.
Qed.

Lemma mod_pow2_succ (x : Z) (m : nat) :
  x mod 2 ^ Z.of_nat (S m)
  = (if Z.testbit x (Z.of_nat m) then 2 ^ Z.of_nat m else 0) + x mod 2 ^ Z.of_nat m.
Proof.
  rewrite Nat2Z.inj_succ, Z.pow_succ_r by lia.
  rewrite (Z.mul_comm 2), Z.rem_mul_r by lia.
  assert (Hb : Z.b2z (Z.testbit x (Z.of_nat m)) = (x / 2 ^ Z.of_nat m) mod 2).
  { rewrite Z.testbit_spec' by lia. reflexivity. }
  rewrite <- Hb. destruct (Z.testbit x (Z.of_nat m)); simpl Z.b2z; lia.
Qed.

Lemma shiftr_zero_iff (x n : Z) :
  0 <= n -> 0 <= x -> (Z.shiftr x n = 0 <-> x < 2 ^ n).
Proof.
  intros Hn Hx. rewrite Z.shiftr_div_pow2 by assumption.
  assert (0 < 2 ^ n) by (apply Z.pow_pos_nonneg; lia).
  split; intros H0.
  - apply Z.div_small_iff in H0; lia.
  - apply Z.div_small; lia.
Qed.


(** ** Population count *)

Lemma count_bits_le (n : nat) (x : Z) : (count_bits n x <= n)%nat.
Proof.
  induction n as [|n IH]; simpl; [lia|].
  destruct (Z.testbit x (Z.of_nat n)); lia.
Qed.

Lemma count_bits_mono (n m : nat) (x : Z) :
  (n <= m)%nat -> (count_bits n x <= count_bits m x)%nat.
Proof.
  induction 1 as [|m Hm IH]; [lia|]. simpl.
  destruct (Z.testbit x (Z.of_nat m)); lia.
Qed.

Lemma count_bits_ext (n : nat) (x y : Z) :
  (forall i, 0 <= i < Z.of_nat n -> Z.testbit x i = Z.testbit y i) ->
  count_bits n x = count_bits n y.
Proof.
  induction n as [|n IH]; intros H; simpl; [reflexivity|].
  rewrite H by lia. rewrite IH; [reflexivity|].
  intros i Hi. apply H. lia.
Qed.

Lemma count_bits_high (n m : nat) (x : Z) :
  (n <= m)%nat ->
  (forall i, Z.of_nat n <= i -> Z.testbit x i = false) ->
  count_bits m x = count_bits n x.
Proof.
  intros Hnm Hx. induction Hnm as [|m Hm IH]; [reflexivity|].
  simpl. rewrite Hx by lia. assumption.
Qed.

Lemma CUDA_POPCOUNT_low (w : PetscIntKind) (n : nat) (x : Z) :
  Z.of_nat n <= bits w -> 0 <= x < 2 ^ Z.of_nat n ->
  CUDA_POPCOUNT w x = Z.of_nat (count_bits n x).
Proof.
  intros Hn Hx. unfold CUDA_POPCOUNT. f_equal.
  apply count_bits_high; [lia|].
  intros i Hi. apply (testbit_high (Z.of_nat n)); lia.
Qed.

(** ** Binomial coefficients *)

Lemma binom_nonneg (n k : nat) : 0 <= binom n k.
Proof.
  revert k. induction n as [|n IH]; intros [|k]; simpl; try lia.
  pose proof (IH k). pose proof (IH (S k)). lia.
Qed.

Lemma binom_above (n k : nat) : (n < k)%nat -> binom n k = 0.
Proof.
  revert k. induction n as [|n IH]; intros [|k] H; simpl; try lia.
  rewrite !IH by lia. reflexivity.
Qed.


Lemma binom_zero_r (n : nat) : binom n 0 = 1.
Proof. destruct n; reflexivity. Qed.


Lemma binom_succ_le (n k : nat) : binom n k <= binom (S n) k.
Proof.
  destruct k as [|k]; simpl.
  - rewrite binom_zero_r. lia.
  - pose proof (binom_nonneg n k). lia.
Qed.

Lemma binom_le_pow2 (n k : nat) : binom n k <= 2 ^ Z.of_nat n.
Proof.
  revert k. induction n as [|n IH]; intros [|k]; simpl binom.
  - simpl. lia.
  - simpl. lia.
  - assert (0 < 2 ^ Z.of_nat (S n)) by (apply Z.pow_pos_nonneg; lia). lia.
  - rewrite Nat2Z.inj_succ, Z.pow_succ_r by lia.
    pose proof (IH k). pose proof (IH (S k)). lia.
Qed.

Lemma choose_binom (n k : nat) : choose (Z.of_nat n) (Z.of_nat k) = binom n k.
Proof.
  unfold choose.
  destruct (Z.ltb_spec (Z.of_nat n) 0); [lia|].
  destruct (Z.ltb_spec (Z.of_nat k) 0); [lia|].
  simpl. now rewrite !Nat2Z.id.
Qed.

(** ** Ranking *)

Lemma rank_nonneg (n : nat) (s : Z) : 0 <= rank n s.
Proof.
  induction n as [|n IH]; simpl; [lia|].
  destruct (Z.testbit s (Z.of_nat n)); [|lia].
  match goal with |- context [binom ?a ?b] => pose proof (binom_nonneg a b) end.
  lia.
Qed.

Lemma rank_ext (n : nat) (s t : Z) :
  (forall i, 0 <= i < Z.of_nat n -> Z.testbit s i = Z.testbit t i) ->
  rank n s = rank n t.
Proof.
  induction n as [|n IH]; intros H; [reflexivity|].
  cbn [rank]. rewrite IH by (intros i Hi; apply H; lia).
  rewrite (H (Z.of_nat n)) by lia.
  rewrite (count_bits_ext (S n) s t) by assumption.
  reflexivity.
Qed.

Lemma rank_high (n m : nat) (s : Z) :
  (n <= m)%nat ->
  (forall i, Z.of_nat n <= i -> Z.testbit s i = false) ->
  rank m s = rank n s.
Proof.
  intros Hnm Hs. induction Hnm as [|m Hm IH]; [reflexivity|].
  cbn [rank]. rewrite Hs by lia. lia.
Qed.

(** The rank of an [n]-bit pattern of weight [j] is below [C(n, j)]. *)
Lemma rank_bound (n : nat) (s : Z) : rank n s < binom n (count_bits n s).
Proof.
  induction n as [|n IH]; [simpl; lia|].
  cbn [rank count_bits].
  destruct (Z.testbit s (Z.of_nat n)).
  - change (1 + count_bits n s)%nat with (S (count_bits n s)).
    cbn [binom]. lia.
  - change (0 + count_bits n s)%nat with (count_bits n s).
    pose proof (binom_succ_le n (count_bits n s)). lia.
Qed.

Lemma rank_lt_pow2 (n : nat) (s : Z) : rank n s < 2 ^ Z.of_nat n.
Proof.
  pose proof (rank_bound n s). pose proof (binom_le_pow2 n (count_bits n s)). lia.
Qed.

(** ** SpinConserve: the two loops *)

Lemma rd_Done_bounds (arr : list Z) (i v : Z) :
  rd arr i = Done v -> 0 <= i < Z.of_nat (length arr).
Proof.
  unfold rd. destruct (Z.ltb_spec i 0); [discriminate|].
  destruct (nth_error arr (Z.to_nat i)) eqn:E; [|discriminate].
  intros _. assert (Z.to_nat i < length arr)%nat by (apply nth_error_Some; congruence).
  lia.
Qed.

Lemma is_PetscInt_range (w : PetscIntKind) (z : Z) :
  - 2 ^ 31 <= z <= PetscInt_max w -> is_PetscInt w z.
Proof.
  intros Hz. unfold is_PetscInt, PetscInt_min, PetscInt_max in *.
  assert (2 ^ 31 <= 2 ^ (bits w - 1))
    by (apply Z.pow_le_mono_r; pose proof (bits_lower w); lia).
  lia.
Qed.

Lemma bits_upper (w : PetscIntKind) : bits w <= 64.
Proof. destruct w; simpl; lia. Qed.

Lemma lor_double_1 (a : Z) : 0 <= a -> Z.lor (2 * a) 1 = 2 * a + 1.
Proof. intros Ha. destruct a as [|p|p]; [reflexivity|reflexivity|lia]. Qed.

Lemma top_bit_set (m : nat) (u : Z) :
  0 <= u < 2 ^ Z.of_nat m ->
  Z.testbit (2 ^ Z.of_nat m + u) (Z.of_nat m) = true
  /\ forall i, 0 <= i < Z.of_nat m ->
               Z.testbit (2 ^ Z.of_nat m + u) i = Z.testbit u i.
Proof.
  intros Hu. split.
  - apply Z.testbit_true; [lia|].
    replace ((2 ^ Z.of_nat m + u) / 2 ^ Z.of_nat m) with 1; [reflexivity|].
    apply Z.div_unique with (r := u); lia.
  - intros i Hi.
    rewrite <- (Z.mod_pow2_bits_low (2 ^ Z.of_nat m + u) (Z.of_nat m) i) by lia.
    f_equal. rewrite <- Zplus_mod_idemp_l, Z.mod_same, Z.add_0_l by lia.
    apply Z.mod_small. assumption.
Qed.

Section SpinConserve.
Variable w : PetscIntKind.
Variable d : Part000.data_SpinConserve.t.
Hypothesis Hwf : wf_SpinConserve w d.

Local Abbreviation Ld := (Part000.data_SpinConserve.L d).
Local Abbreviation kd := (Part000.data_SpinConserve.k d).
Local Abbreviation ld := (Part000.data_SpinConserve.ld_nchoosek d).
Local Abbreviation tbl := (Part000.data_SpinConserve.nchoosek d).

Lemma table_index (i n : nat) :
  Z.of_nat i <= kd -> Z.of_nat n < Ld ->
  rd tbl (Z.of_nat i * ld + Z.of_nat n) = Done (binom n i)
  /\ is_PetscInt w (Z.of_nat i * ld)
  /\ is_PetscInt w (Z.of_nat i * ld + Z.of_nat n)
  /\ is_PetscInt w (Z.of_nat i * ld + Z.of_nat n + 1).
Proof.
  intros Hi Hn. destruct Hwf as (HL & Hk & Hlen & Htbl).
  pose proof (Htbl (Z.of_nat i) (Z.of_nat n) ltac:(lia) ltac:(lia)) as Hrd.
  rewrite choose_binom in Hrd.
  pose proof (rd_Done_bounds _ _ _ Hrd) as Hb.
  pose proof (bits_upper w).
  split; [assumption|].
  repeat split; apply is_PetscInt_range; lia.
Qed.

Lemma table_read (i n : nat) :
  Z.of_nat i <= kd -> Z.of_nat n < Ld ->
  rd tbl (add w (mul w (Z.of_nat i) ld) (Z.of_nat n)) = Done (binom n i).
Proof.
  intros Hi Hn. destruct (table_index i n Hi Hn) as (Hrd & H1 & H2 & _).
  unfold add, mul. rewrite (wrap_id w _ H1), (wrap_id w _ H2). assumption.
Qed.

Lemma table_read_pred (i n : nat) :
  Z.of_nat i <= kd -> Z.of_nat n < Ld ->
  rd tbl (sub w (add w (mul w (Z.of_nat i) ld) (Z.of_nat (S n))) 1) = Done (binom n i).
Proof.
  intros Hi Hn. destruct (table_index i n Hi Hn) as (Hrd & H1 & H2 & H3).
  unfold add, mul, sub. rewrite (wrap_id w _ H1).
  replace (Z.of_nat i * ld + Z.of_nat (S n)) with (Z.of_nat i * ld + Z.of_nat n + 1) by lia.
  rewrite (wrap_id w _ H3).
  replace (Z.of_nat i * ld + Z.of_nat n + 1 - 1) with (Z.of_nat i * ld + Z.of_nat n) by lia.
  rewrite (wrap_id w _ H2). assumption.
Qed.

(** After [n] passes the loop of [S2I_CUDA_SpinConserve] holds the rank and
    the weight of the [n] low bits. *)
Lemma S2I_loop_rank (fuel n : nat) (s : Z) :
  Z.of_nat (n + fuel) <= Ld ->
  Z.of_nat (count_bits (n + fuel) s) <= kd ->
  0 <= s ->
  Part000.S2I_loop_SpinConserve w d fuel (Z.of_nat n)
    (Z.of_nat (count_bits n s)) (rank n s) (Z.shiftr s (Z.of_nat n))
  = Done (rank (n + fuel) s).
Proof.
  revert n. induction fuel as [|fuel IH]; intros n HL Hk Hs.
  - rewrite Nat.add_0_r. reflexivity.
  - cbn [Part000.S2I_loop_SpinConserve].
    rewrite land_1_testbit, Z.shiftr_spec by lia. rewrite Z.add_0_l.
    unfold shr. rewrite Z.shiftr_shiftr by lia.
    replace (Z.of_nat n + 1) with (Z.of_nat (S n)) by lia.
    assert (Hn1 : add w (Z.of_nat n) 1 = Z.of_nat (S n)).
    { unfold add. rewrite wrap_id; [lia|].
      destruct Hwf as (HLd & _). pose proof (bits_upper w).
      apply is_PetscInt_small. lia. }
    assert (Hexit : forall idx,
               idx = rank (S n) s ->
               (if Z.shiftr s (Z.of_nat (S n)) =? 0 then Done idx
                else Part000.S2I_loop_SpinConserve w d fuel (add w (Z.of_nat n) 1)
                       (Z.of_nat (count_bits (S n) s)) idx (Z.shiftr s (Z.of_nat (S n))))
               = Done (rank (n + S fuel) s)).
    { intros idx ->. destruct (Z.eqb_spec (Z.shiftr s (Z.of_nat (S n))) 0) as [Hz|Hz].
      - f_equal. symmetry. apply rank_high; [lia|].
        apply shiftr_zero_iff in Hz; [|lia|lia].
        intros i Hi. apply (testbit_high (Z.of_nat (S n))); lia.
      - rewrite Hn1, IH; [f_equal; f_equal; lia| | |assumption].
        + replace (S n + fuel)%nat with (n + S fuel)%nat by lia. assumption.
        + replace (S n + fuel)%nat with (n + S fuel)%nat by lia. assumption. }
    destruct (Z.testbit s (Z.of_nat n)) eqn:Hbit; cbn [negb].
    + assert (Hc : add w (Z.of_nat (count_bits n s)) 1 = Z.of_nat (count_bits (S n) s)).
      { cbn [count_bits]. rewrite Hbit. unfold add. rewrite wrap_id; [lia|].
        pose proof (count_bits_le n s). destruct Hwf as (HLd & _).
        pose proof (bits_upper w). apply is_PetscInt_small. lia. }
      cbv zeta. rewrite Hc.
      assert (Hkn : Z.of_nat (count_bits (S n) s) <= kd).
      { pose proof (count_bits_mono (S n) (n + S fuel) s ltac:(lia)). lia. }
      destruct (Z.leb_spec (Z.of_nat (count_bits (S n) s)) (Z.of_nat n)) as [Hle|Hgt].
      * rewrite table_read by lia. cbn [bind].
        apply Hexit. cbn [rank]. rewrite Hbit.
        unfold add. rewrite wrap_id; [reflexivity|].
        pose proof (rank_nonneg (S n) s). pose proof (rank_lt_pow2 (S n) s).
        cbn [rank] in *. rewrite Hbit in *.
        destruct Hwf as (HLd & _).
        apply (is_PetscInt_below w (Z.of_nat (S n))); lia.
      * cbn [bind]. apply Hexit. cbn [rank]. rewrite Hbit.
        rewrite binom_above by lia. lia.
    + cbn [bind]. 
      assert (Hc : count_bits (S n) s = count_bits n s).
      { cbn [count_bits]. rewrite Hbit. reflexivity. }
      rewrite <- Hc. apply Hexit. cbn [rank]. rewrite Hbit. lia.
Qed.
Lemma sub_1_succ (n : nat) : Z.of_nat (S n) <= Ld -> sub w (Z.of_nat (S n)) 1 = Z.of_nat n.
Proof.
  intros Hn. unfold sub. rewrite wrap_id; [lia|].
  destruct Hwf as (HLd & _). pose proof (bits_upper w).
  apply is_PetscInt_small. lia.
Qed.

Lemma shl_1_acc (n : nat) (acc : Z) :
  Z.of_nat (S n) <= Ld -> 0 <= acc -> (acc + 1) * 2 ^ Z.of_nat (S n) <= 2 ^ Ld ->
  shl w acc 1 = 2 * acc
  /\ (2 * acc + 1 + 1) * 2 ^ Z.of_nat n <= 2 ^ Ld
  /\ (2 * acc + 1) * 2 ^ Z.of_nat n <= 2 ^ Ld.
Proof.
  intros Hn Hacc Hb.
  rewrite Nat2Z.inj_succ, Z.pow_succ_r in Hb by lia.
  assert (0 < 2 ^ Z.of_nat n) by (apply Z.pow_pos_nonneg; lia).
  split; [|split; nia].
  unfold shl. rewrite Z.shiftl_mul_pow2 by lia. change (2 ^ 1) with 2.
  rewrite wrap_id; [lia|].
  destruct Hwf as (HLd & _).
  apply (is_PetscInt_below w Ld); [lia|nia].
Qed.

(** Unranking the rank of the [n] low bits of [s] appends these bits to
    the accumulator. *)
Lemma I2S_loop_rank (n : nat) (s acc : Z) :
  Z.of_nat n <= Ld ->
  Z.of_nat (count_bits n s) <= kd ->
  0 <= acc -> (acc + 1) * 2 ^ Z.of_nat n <= 2 ^ Ld ->
  Part000.I2S_loop_SpinConserve w d n (Z.of_nat n)
    (Z.of_nat (count_bits n s)) (rank n s) acc
  = Done (acc * 2 ^ Z.of_nat n + s mod 2 ^ Z.of_nat n).
Proof.
  revert acc. induction n as [|m IH]; intros acc Hn Hk Hacc Hb.
  - cbn [Part000.I2S_loop_SpinConserve]. f_equal.
    simpl. rewrite Z.mod_1_r. lia.
  - cbn [Part000.I2S_loop_SpinConserve]. cbv zeta.
    rewrite (sub_1_succ m Hn).
    destruct (shl_1_acc m acc Hn Hacc Hb) as (-> & Hb1 & Hb0).
    rewrite mod_pow2_succ.
    assert (Hkm : Z.of_nat (count_bits m s) <= kd).
    { pose proof (count_bits_mono m (S m) s ltac:(lia)). lia. }
    pose proof (rank_nonneg m s) as Hr0.
    pose proof (rank_bound m s) as Hr1.
    pose proof (count_bits_le m s) as Hcm.
    assert (Hpow : 2 ^ Z.of_nat (S m) = 2 * 2 ^ Z.of_nat m)
      by (rewrite Nat2Z.inj_succ, Z.pow_succ_r; lia).
    cbn [rank count_bits] in *.
    destruct (Z.testbit s (Z.of_nat m)) eqn:Hbit.
    + change (1 + count_bits m s)%nat with (S (count_bits m s)) in *.
      assert (Hcur :
        (if Z.of_nat (S (count_bits m s)) >? Z.of_nat m then Done 0
         else rd tbl (sub w (add w (mul w (Z.of_nat (S (count_bits m s))) ld)
                                    (Z.of_nat (S m))) 1))
        = Done (binom m (S (count_bits m s)))).
      { rewrite Z.gtb_ltb.
        destruct (Z.ltb_spec (Z.of_nat m) (Z.of_nat (S (count_bits m s)))).
        - rewrite binom_above by lia. reflexivity.
        - apply table_read_pred; lia. }
      rewrite Hcur. cbn [bind].
      pose proof (binom_nonneg m (S (count_bits m s))).
      rewrite Z.geb_leb.
      destruct (Z.leb_spec (binom m (S (count_bits m s)))
                  (rank m s + binom m (S (count_bits m s)))); [|lia].
      rewrite lor_double_1 by lia.
      replace (sub w (Z.of_nat (S (count_bits m s))) 1) with (Z.of_nat (count_bits m s)).
      2:{ unfold sub. rewrite wrap_id; [lia|].
          destruct Hwf as (HLd & _). pose proof (bits_upper w).
          apply is_PetscInt_small. lia. }
      replace (sub w (rank m s + binom m (S (count_bits m s)))
                 (binom m (S (count_bits m s)))) with (rank m s).
      2:{ unfold sub. rewrite wrap_id; [lia|].
          pose proof (rank_lt_pow2 m s). destruct Hwf as (HLd & _).
          apply (is_PetscInt_below w (Z.of_nat m)); lia. }
      rewrite IH by lia. f_equal. rewrite Hpow. lia.
    + change (0 + count_bits m s)%nat with (count_bits m s) in *.
      rewrite Z.gtb_ltb.
      destruct (Z.ltb_spec (Z.of_nat m) (Z.of_nat (count_bits m s))); [lia|].
      rewrite table_read_pred by lia. cbn [bind].
      rewrite Z.geb_leb.
      destruct (Z.leb_spec (binom m (count_bits m s)) (rank m s + 0)); [lia|].
      rewrite Z.add_0_r.
      rewrite IH by lia. f_equal. rewrite Hpow. lia.
Qed.

(** Unranking an index below [C(n, j)] yields an [n]-bit pattern of
    weight [j] whose rank is the index. *)
Lemma I2S_loop_unrank (n j : nat) (idx acc : Z) :
  Z.of_nat n <= Ld ->
  Z.of_nat j <= kd ->
  0 <= idx < binom n j ->
  0 <= acc -> (acc + 1) * 2 ^ Z.of_nat n <= 2 ^ Ld ->
  exists u,
    Part000.I2S_loop_SpinConserve w d n (Z.of_nat n) (Z.of_nat j) idx acc
    = Done (acc * 2 ^ Z.of_nat n + u)
    /\ 0 <= u < 2 ^ Z.of_nat n
    /\ count_bits n u = j
    /\ rank n u = idx.
Proof.
  revert j idx acc. induction n as [|m IH]; intros j idx acc Hn Hj Hidx Hacc Hb.
  - exists 0. cbn [Part000.I2S_loop_SpinConserve count_bits rank].
    destruct j as [|j]; simpl in Hidx; [|lia].
    repeat split; try lia. f_equal. simpl. lia.
  - cbn [Part000.I2S_loop_SpinConserve]. cbv zeta.
    rewrite (sub_1_succ m Hn).
    destruct (shl_1_acc m acc Hn Hacc Hb) as (-> & Hb1 & Hb0).
    assert (Hpow : 2 ^ Z.of_nat (S m) = 2 * 2 ^ Z.of_nat m)
      by (rewrite Nat2Z.inj_succ, Z.pow_succ_r; lia).
    assert (Hp0 : 0 < 2 ^ Z.of_nat m) by (apply Z.pow_pos_nonneg; lia).
    assert (Hjm : (j <= S m)%nat).
    { destruct (Nat.le_gt_cases j (S m)); [assumption|].
      rewrite binom_above in Hidx by lia. lia. }
    assert (Hcur :
        (if Z.of_nat j >? Z.of_nat m then Done 0
         else rd tbl (sub w (add w (mul w (Z.of_nat j) ld) (Z.of_nat (S m))) 1))
        = Done (binom m j)).
    { rewrite Z.gtb_ltb. destruct (Z.ltb_spec (Z.of_nat m) (Z.of_nat j)).
      - rewrite binom_above by lia. reflexivity.
      - apply table_read_pred; lia. }
    rewrite Hcur. cbn [bind]. rewrite Z.geb_leb.
    destruct (Z.leb_spec (binom m j) idx) as [Hge|Hlt].
    + (* the bit is set *)
      destruct j as [|j'].
      { rewrite binom_zero_r in *. lia. }
      cbn [binom] in Hidx.
      replace (sub w (Z.of_nat (S j')) 1) with (Z.of_nat j').
      2:{ unfold sub. rewrite wrap_id; [lia|].
          destruct Hwf as (HLd & _). pose proof (bits_upper w).
          apply is_PetscInt_small. lia. }
      pose proof (binom_nonneg m (S j')).
      pose proof (binom_le_pow2 m j').
      replace (sub w idx (binom m (S j'))) with (idx - binom m (S j')).
      2:{ unfold sub. rewrite wrap_id; [lia|].
          destruct Hwf as (HLd & _).
          apply (is_PetscInt_below w (Z.of_nat m)); lia. }
      rewrite lor_double_1 by lia.
      destruct (IH j' (idx - binom m (S j')) (2 * acc + 1))
        as (u & Hrun & Hu & Hcnt & Hrk); try lia.
      destruct (top_bit_set m u Hu) as (Htop & Hlow).
      exists (2 ^ Z.of_nat m + u). rewrite Hrun.
      split; [f_equal; rewrite Hpow; lia|].
      split; [lia|].
      assert (Hc : count_bits (S m) (2 ^ Z.of_nat m + u) = S j').
      { cbn [count_bits]. rewrite Htop.
        rewrite (count_bits_ext m _ u Hlow), Hcnt. reflexivity. }
      split; [assumption|].
      cbn [rank]. rewrite Htop, Hc.
      rewrite (rank_ext m _ u Hlow), Hrk. lia.
    + (* the bit is clear *)
      destruct (IH j idx (2 * acc)) as (u & Hrun & Hu & Hcnt & Hrk); try lia.
      exists u. rewrite Hrun.
      assert (Hbit : Z.testbit u (Z.of_nat m) = false)
        by (apply (testbit_high (Z.of_nat m)); lia).
      split; [f_equal; rewrite Hpow; lia|].
      split; [lia|].
      cbn [count_bits rank]. rewrite Hbit, Hcnt, Hrk.
      split; [reflexivity|lia].
Qed.
End SpinConserve.

(** ** SpinConserve: encode and decode *)

Lemma S2I_loop_zero (w : PetscIntKind) (d : Part000.data_SpinConserve.t)
      (fuel : nat) (n k idx : Z) :
  Part000.S2I_loop_SpinConserve_full w d fuel n k idx 0 = Done idx.
Proof.
  revert n k. induction fuel as [|fuel IH]; intros n k; [reflexivity|].
  cbn [Part000.S2I_loop_SpinConserve_full]. simpl Z.land. simpl (0 =? 0).
  cbn [bind]. unfold shr. simpl Z.shiftr. apply IH.
Qed.

Lemma S2I_loop_early_exit (w : PetscIntKind) (d : Part000.data_SpinConserve.t)
      (fuel : nat) (n k idx state : Z) :
  Part000.S2I_loop_SpinConserve w d fuel n k idx state
  = Part000.S2I_loop_SpinConserve_full w d fuel n k idx state.
Proof.
  revert n k idx state. induction fuel as [|fuel IH]; intros n k idx state;
    [reflexivity|].
  cbn [Part000.S2I_loop_SpinConserve Part000.S2I_loop_SpinConserve_full].
  match goal with
  | |- bind ?m _ = bind ?m _ => destruct m as [[k' idx']|i]
  end; cbn [bind]; [|reflexivity].
  destruct (Z.eqb_spec (shr state 1) 0) as [Hz|Hz].
  - rewrite Hz, S2I_loop_zero. reflexivity.
  - apply IH.
Qed.

Lemma S2I_valid (w : PetscIntKind) (d : Part000.data_SpinConserve.t) (s : Z) :
  wf_SpinConserve w d ->
  0 <= s < 2 ^ Part000.data_SpinConserve.L d ->
  CUDA_POPCOUNT w s = Part000.data_SpinConserve.k d ->
  Part000.S2I_CUDA_SpinConserve w s d
  = Done (rank (Z.to_nat (Part000.data_SpinConserve.L d)) s).
Proof.
  intros Hwf Hs Hpop. pose proof Hwf as (HL & Hk & _).
  unfold Part000.S2I_CUDA_SpinConserve, shr.
  assert (Hz : Z.shiftr s (Part000.data_SpinConserve.L d) = 0)
    by (apply shiftr_zero_iff; lia).
  rewrite Hz, Hpop, !Z.eqb_refl. cbn [negb].
  rewrite (CUDA_POPCOUNT_low w (Z.to_nat (Part000.data_SpinConserve.L d))) in Hpop
    by (rewrite Z2Nat.id; lia).
  pose proof (S2I_loop_rank w d Hwf (Z.to_nat (Part000.data_SpinConserve.L d)) 0 s)
    as Hloop.
  cbn [count_bits rank Nat.add Z.of_nat] in Hloop. rewrite Z.shiftr_0_r in Hloop.
  apply Hloop; lia.
Qed.

Lemma I2S_of_rank (w : PetscIntKind) (d : Part000.data_SpinConserve.t) (s : Z) :
  wf_SpinConserve w d ->
  0 <= s < 2 ^ Part000.data_SpinConserve.L d ->
  CUDA_POPCOUNT w s = Part000.data_SpinConserve.k d ->
  Part000.I2S_CUDA_SpinConserve w
    (rank (Z.to_nat (Part000.data_SpinConserve.L d)) s) d = Done s.
Proof.
  intros Hwf Hs Hpop. pose proof Hwf as (HL & Hk & _).
  unfold Part000.I2S_CUDA_SpinConserve.
  rewrite (CUDA_POPCOUNT_low w (Z.to_nat (Part000.data_SpinConserve.L d))) in Hpop
    by (rewrite Z2Nat.id; lia).
  pose proof (I2S_loop_rank w d Hwf (Z.to_nat (Part000.data_SpinConserve.L d)) s 0)
    as Hloop.
  rewrite Z2Nat.id, Hpop in Hloop by lia.
  rewrite Hloop by lia. f_equal. rewrite Z.mod_small; lia.
Qed.

Lemma I2S_valid (w : PetscIntKind) (d : Part000.data_SpinConserve.t) (i : Z) :
  wf_SpinConserve w d ->
  0 <= i < choose (Part000.data_SpinConserve.L d) (Part000.data_SpinConserve.k d) ->
  exists u,
    Part000.I2S_CUDA_SpinConserve w i d = Done u
    /\ 0 <= u < 2 ^ Part000.data_SpinConserve.L d
    /\ CUDA_POPCOUNT w u = Part000.data_SpinConserve.k d
    /\ rank (Z.to_nat (Part000.data_SpinConserve.L d)) u = i.
Proof.
  intros Hwf Hi. pose proof Hwf as (HL & Hk & _).
  unfold Part000.I2S_CUDA_SpinConserve.
  rewrite <- (Z2Nat.id (Part000.data_SpinConserve.L d)) in Hi by lia.
  rewrite <- (Z2Nat.id (Part000.data_SpinConserve.k d)) in Hi by lia.
  rewrite choose_binom in Hi.
  destruct (I2S_loop_unrank w d Hwf (Z.to_nat (Part000.data_SpinConserve.L d))
              (Z.to_nat (Part000.data_SpinConserve.k d)) i 0)
    as (u & Hrun & Hu & Hcnt & Hrk); try (rewrite ?Z2Nat.id; lia).
  rewrite !Z2Nat.id in Hrun by lia. rewrite Z2Nat.id in Hu by lia.
  exists u. rewrite Hrun. split; [f_equal; lia|].
  split; [assumption|]. split; [|assumption].
  rewrite (CUDA_POPCOUNT_low w (Z.to_nat (Part000.data_SpinConserve.L d)))
    by (rewrite Z2Nat.id; lia).
  rewrite Hcnt. lia.
Qed.

(** C1. SpinConserve round trip.  For a structure with [0 <= L < bits],
    [0 <= k] and a binomial table obeying its contract, decoding the index
    of any state of width at most [L] and population count [k] gives the
    state back, and encoding the state decoded from any index of
    [[0, C(L,k))] gives the index back. *)
Theorem SpinConserve_roundtrip (w : PetscIntKind) (d : Part000.data_SpinConserve.t) :
  wf_SpinConserve w d ->
  (forall state,
      0 <= state < 2 ^ Part000.data_SpinConserve.L d ->
      CUDA_POPCOUNT w state = Part000.data_SpinConserve.k d ->
      (idx <- Part000.S2I_CUDA_SpinConserve w state d ;;
       Part000.I2S_CUDA_SpinConserve w idx d) = Done state)
  /\ (forall i,
      0 <= i < choose (Part000.data_SpinConserve.L d) (Part000.data_SpinConserve.k d) ->
      (state <- Part000.I2S_CUDA_SpinConserve w i d ;;
       Part000.S2I_CUDA_SpinConserve w state d) = Done i).
Proof.
  intros Hwf. split.
  - intros state Hs Hpop. rewrite S2I_valid by assumption. cbn [bind].
    apply I2S_of_rank; assumption.
  - intros i Hi. destruct (I2S_valid w d i Hwf Hi) as (u & Hrun & Hu & Hpop & Hrk).
    rewrite Hrun. cbn [bind]. rewrite S2I_valid by assumption. now rewrite Hrk.
Qed.

Lemma d42_wf (w : PetscIntKind) : wf_SpinConserve w d42.
Proof.
  unfold wf_SpinConserve, table_ok. simpl.
  pose proof (bits_lower w).
  split; [lia|]. split; [lia|]. split.
  - unfold PetscInt_max.
    assert (2 ^ 31 <= 2 ^ (bits w - 1)) by (apply Z.pow_le_mono_r; lia). lia.
  - intros i n Hi Hn.
    assert (Hi' : i = 0 \/ i = 1 \/ i = 2) by lia.
    assert (Hn' : n = 0 \/ n = 1 \/ n = 2 \/ n = 3) by lia.
    destruct Hi' as [->|[->| ->]];
      destruct Hn' as [->|[->|[->| ->]]]; reflexivity.
Qed.

Lemma SpinConserve_roundtrip_witness :
  wf_SpinConserve Int64 d42
  /\ (idx <- Part000.S2I_CUDA_SpinConserve Int64 5 d42 ;;
      Part000.I2S_CUDA_SpinConserve Int64 idx d42) = Done 5
  /\ (state <- Part000.I2S_CUDA_SpinConserve Int64 4 d42 ;;
      Part000.S2I_CUDA_SpinConserve Int64 state d42) = Done 4.
Proof.
  split; [exact (d42_wf Int64)|]. split.
  - apply (proj1 (SpinConserve_roundtrip Int64 d42 (d42_wf Int64))).
    + simpl. lia.
    + reflexivity.
  - apply (proj2 (SpinConserve_roundtrip Int64 d42 (d42_wf Int64))).
    vm_compute. split; [discriminate|reflexivity].
Defined.

(** C5. SpinConserve rejection.  A state with a bit set at a position
    [>= L], or whose population count is not [k], is encoded as the sentinel
    [-1]; a state of width at most [L] and population count [k] is encoded
    as an index of [[0, C(L,k))], which is not [-1]. *)
Theorem SpinConserve_rejection (w : PetscIntKind) (d : Part000.data_SpinConserve.t)
        (state : Z) :
  0 <= Part000.data_SpinConserve.L d < bits w ->
  ((exists i, Part000.data_SpinConserve.L d <= i /\ Z.testbit state i = true)
   \/ CUDA_POPCOUNT w state <> Part000.data_SpinConserve.k d ->
   Part000.S2I_CUDA_SpinConserve w state d = Done (-1))
  /\ (wf_SpinConserve w d ->
      0 <= state < 2 ^ Part000.data_SpinConserve.L d ->
      CUDA_POPCOUNT w state = Part000.data_SpinConserve.k d ->
      exists idx,
        Part000.S2I_CUDA_SpinConserve w state d = Done idx
        /\ 0 <= idx
             < choose (Part000.data_SpinConserve.L d) (Part000.data_SpinConserve.k d)
        /\ idx <> -1).
Proof.
  intros HL. split.
  - intros Hbad. unfold Part000.S2I_CUDA_SpinConserve, shr.
    destruct (Z.eqb_spec (Z.shiftr state (Part000.data_SpinConserve.L d)) 0)
      as [Hz|Hz]; cbn [negb]; [|reflexivity].
    destruct (Z.eqb_spec (CUDA_POPCOUNT w state) (Part000.data_SpinConserve.k d))
      as [Hp|Hp]; cbn [negb]; [|reflexivity].
    destruct Hbad as [(i & Hi & Hbit)|Hne]; [|contradiction].
    exfalso.
    assert (Hb : Z.testbit (Z.shiftr state (Part000.data_SpinConserve.L d))
                   (i - Part000.data_SpinConserve.L d) = true).
    { rewrite Z.shiftr_spec by lia. rewrite <- Hbit. f_equal. lia. }
    rewrite Hz, Z.bits_0 in Hb. discriminate.
  - intros Hwf Hs Hpop. rewrite S2I_valid by assumption.
    eexists. split; [reflexivity|].
    pose proof (rank_nonneg (Z.to_nat (Part000.data_SpinConserve.L d)) state).
    pose proof (rank_bound (Z.to_nat (Part000.data_SpinConserve.L d)) state) as Hb.
    rewrite (CUDA_POPCOUNT_low w (Z.to_nat (Part000.data_SpinConserve.L d))) in Hpop
      by (rewrite Z2Nat.id; lia).
    rewrite <- Hpop.
    replace (choose (Part000.data_SpinConserve.L d))
      with (choose (Z.of_nat (Z.to_nat (Part000.data_SpinConserve.L d))))
      by (rewrite Z2Nat.id; [reflexivity|lia]).
    rewrite choose_binom. lia.
Qed.

Lemma SpinConserve_rejection_witness :
  Part000.S2I_CUDA_SpinConserve Int64 17 d42 = Done (-1)
  /\ Part000.S2I_CUDA_SpinConserve Int64 7 d42 = Done (-1)
  /\ exists idx, Part000.S2I_CUDA_SpinConserve Int64 10 d42 = Done idx
                 /\ 0 <= idx < choose 4 2 /\ idx <> -1.
Proof.
  assert (HL : 0 <= Part000.data_SpinConserve.L d42 < bits Int64) by (simpl; lia).
  split; [|split].
  - apply (proj1 (SpinConserve_rejection Int64 d42 17 HL)).
    left. exists 4. split; [simpl; lia|reflexivity].
  - apply (proj1 (SpinConserve_rejection Int64 d42 7 HL)).
    right. vm_compute. discriminate.
  - apply (proj2 (SpinConserve_rejection Int64 d42 10 HL)).
    + exact (d42_wf Int64).
    + simpl. lia.
    + reflexivity.
Defined.

(** C9. The early return of [S2I_CUDA_SpinConserve] preserves the result:
    the function returns what the variant that always runs its [L] passes
    returns, for every state (and so for those that pass the two checks). *)
Theorem SpinConserve_early_exit (w : PetscIntKind) (d : Part000.data_SpinConserve.t)
        (state : Z) :
  Part000.S2I_CUDA_SpinConserve w state d
  = Part000.S2I_CUDA_SpinConserve_full w state d.
Proof.
  unfold Part000.S2I_CUDA_SpinConserve, Part000.S2I_CUDA_SpinConserve_full.
  rewrite S2I_loop_early_exit. reflexivity.
Qed.

(** C7. With [L = 4], [k = 2] and a correct table the dimension is
    [C(4,2) = 6], index 0 decodes to [0b0011], index 5 to [0b1100], and the
    indices 0..5 decode to [3, 5, 6, 9, 10, 12]: these are all the 4-bit
    states of weight 2, and each is encoded back to its position. *)
Theorem SpinConserve_L4_k2 (w : PetscIntKind) (d : Part000.data_SpinConserve.t) :
  wf_SpinConserve w d ->
  Part000.data_SpinConserve.L d = 4 ->
  Part000.data_SpinConserve.k d = 2 ->
  choose (Part000.data_SpinConserve.L d) (Part000.data_SpinConserve.k d) = 6
  /\ Part000.I2S_CUDA_SpinConserve w 0 d = Done 3
  /\ Part000.I2S_CUDA_SpinConserve w 5 d = Done 12
  /\ map (fun i => Part000.I2S_CUDA_SpinConserve w i d) [0; 1; 2; 3; 4; 5]
     = map Done [3; 5; 6; 9; 10; 12]
  /\ map (fun s => Part000.S2I_CUDA_SpinConserve w s d) [3; 5; 6; 9; 10; 12]
     = map Done [0; 1; 2; 3; 4; 5]
  /\ (forall s, 0 <= s < 2 ^ 4 -> CUDA_POPCOUNT w s = 2 ->
                In s [3; 5; 6; 9; 10; 12]).
Proof.
  intros Hwf HL Hk.
  assert (Hdec : forall s, In s [3; 5; 6; 9; 10; 12] ->
            Part000.I2S_CUDA_SpinConserve w (rank 4 s) d = Done s
            /\ Part000.S2I_CUDA_SpinConserve w s d = Done (rank 4 s)).
  { intros s Hs.
    assert (Hr : 0 <= s < 2 ^ Part000.data_SpinConserve.L d)
      by (rewrite HL; simpl in Hs; change (2 ^ 4) with 16; lia).
    assert (Hp : CUDA_POPCOUNT w s = Part000.data_SpinConserve.k d).
    { rewrite Hk. rewrite (CUDA_POPCOUNT_low w 4).
      - simpl in Hs. destruct Hs as [<-|[<-|[<-|[<-|[<-|[<-|[]]]]]]]; reflexivity.
      - pose proof (bits_lower w). lia.
      - rewrite HL in Hr. exact Hr. }
    pose proof (I2S_of_rank w d s Hwf Hr Hp) as H1.
    pose proof (S2I_valid w d s Hwf Hr Hp) as H2.
    rewrite HL in H1, H2. exact (conj H1 H2). }
  assert (D0 : Part000.I2S_CUDA_SpinConserve w 0 d = Done 3)
    by exact (proj1 (Hdec 3 ltac:(simpl; tauto))).
  assert (D1 : Part000.I2S_CUDA_SpinConserve w 1 d = Done 5)
    by exact (proj1 (Hdec 5 ltac:(simpl; tauto))).
  assert (D2 : Part000.I2S_CUDA_SpinConserve w 2 d = Done 6)
    by exact (proj1 (Hdec 6 ltac:(simpl; tauto))).
  assert (D3 : Part000.I2S_CUDA_SpinConserve w 3 d = Done 9)
    by exact (proj1 (Hdec 9 ltac:(simpl; tauto))).
  assert (D4 : Part000.I2S_CUDA_SpinConserve w 4 d = Done 10)
    by exact (proj1 (Hdec 10 ltac:(simpl; tauto))).
  assert (D5 : Part000.I2S_CUDA_SpinConserve w 5 d = Done 12)
    by exact (proj1 (Hdec 12 ltac:(simpl; tauto))).
  assert (E0 : Part000.S2I_CUDA_SpinConserve w 3 d = Done 0)
    by exact (proj2 (Hdec 3 ltac:(simpl; tauto))).
  assert (E1 : Part000.S2I_CUDA_SpinConserve w 5 d = Done 1)
    by exact (proj2 (Hdec 5 ltac:(simpl; tauto))).
  assert (E2 : Part000.S2I_CUDA_SpinConserve w 6 d = Done 2)
    by exact (proj2 (Hdec 6 ltac:(simpl; tauto))).
  assert (E3 : Part000.S2I_CUDA_SpinConserve w 9 d = Done 3)
    by exact (proj2 (Hdec 9 ltac:(simpl; tauto))).
  assert (E4 : Part000.S2I_CUDA_SpinConserve w 10 d = Done 4)
    by exact (proj2 (Hdec 10 ltac:(simpl; tauto))).
  assert (E5 : Part000.S2I_CUDA_SpinConserve w 12 d = Done 5)
    by exact (proj2 (Hdec 12 ltac:(simpl; tauto))).
  split; [rewrite HL, Hk; reflexivity|].
  split; [exact D0|]. split; [exact D5|].
  split; [|split].
  - cbn [map]. rewrite D0, D1, D2, D3, D4, D5. reflexivity.
  - cbn [map]. rewrite E0, E1, E2, E3, E4, E5. reflexivity.
  - intros s Hs Hp. rewrite (CUDA_POPCOUNT_low w 4) in Hp.
    + change (2 ^ 4) with 16 in Hs.
      assert (Hcases : s = 0 \/ s = 1 \/ s = 2 \/ s = 3 \/ s = 4 \/ s = 5 \/ s = 6
                       \/ s = 7 \/ s = 8 \/ s = 9 \/ s = 10 \/ s = 11 \/ s = 12
                       \/ s = 13 \/ s = 14 \/ s = 15) by lia.
      repeat (destruct Hcases as [->|Hcases]; [first [discriminate Hp | simpl; tauto]|]).
      subst s. discriminate Hp.
    + pose proof (bits_lower w). lia.
    + exact Hs.
Qed.

Lemma SpinConserve_L4_k2_witness :
  wf_SpinConserve Int32 d42
  /\ Part000.I2S_CUDA_SpinConserve Int32 0 d42 = Done 3
  /\ Part000.I2S_CUDA_SpinConserve Int32 5 d42 = Done 12.
Proof.
  split; [exact (d42_wf Int32)|].
  pose proof (SpinConserve_L4_k2 Int32 d42 (d42_wf Int32) eq_refl eq_refl) as H.
  split; [exact (proj1 (proj2 H))|exact (proj1 (proj2 (proj2 H)))].
Defined.

(** ** Parity *)

(** *** Population count of composed words *)

Lemma count_bits_lor (n : nat) (a b : Z) :
  Z.land a b = 0 ->
  count_bits n (Z.lor a b) = (count_bits n a + count_bits n b)%nat.
Proof.
  intros Hd. induction n as [|n IH]; [reflexivity|].
  cbn [count_bits]. rewrite IH, Z.lor_spec.
  assert (Hb : Z.testbit a (Z.of_nat n) && Z.testbit b (Z.of_nat n) = false).
  { rewrite <- Z.land_spec, Hd. apply Z.bits_0. }
  destruct (Z.testbit a (Z.of_nat n)), (Z.testbit b (Z.of_nat n));
    simpl in *; try discriminate; lia.
Qed.

Lemma lor_disjoint_add (a b : Z) : Z.land a b = 0 -> Z.lor a b = a + b.
Proof.
  intros Hd. rewrite <- Z.lxor_lor by assumption.
  symmetry. apply Z.add_nocarry_lxor. assumption.
Qed.

Lemma count_bits_pow2 (n : nat) (m : Z) :
  0 <= m ->
  count_bits n (2 ^ m) = if m <? Z.of_nat n then 1%nat else 0%nat.
Proof.
  intros Hm. induction n as [|n IH].
  - simpl. destruct (Z.ltb_spec m 0); [lia|reflexivity].
  - cbn [count_bits]. rewrite IH, Z.pow2_bits_eqb by lia.
    destruct (Z.eqb_spec m (Z.of_nat n)), (Z.ltb_spec m (Z.of_nat n)),
      (Z.ltb_spec m (Z.of_nat (S n))); try lia; reflexivity.
Qed.

Lemma count_bits_0 (n : nat) : count_bits n 0 = 0%nat.
Proof.
  induction n as [|n IH]; [reflexivity|].
  cbn [count_bits]. rewrite Z.bits_0, IH. reflexivity.
Qed.

Lemma land_low_high (i t m : Z) :
  0 <= m -> 0 <= i < 2 ^ m -> Z.land i (t * 2 ^ m) = 0.
Proof.
  intros Hm Hi. apply Z.bits_inj'. intros j Hj.
  rewrite Z.land_spec, Z.bits_0.
  destruct (Z.lt_ge_cases j m).
  - rewrite Z.mul_pow2_bits_low by lia. apply andb_false_r.
  - rewrite (testbit_high m i j) by lia. reflexivity.
Qed.

(** A bit [t] put at position [m], above a word of [m] bits, adds [t] to
    the population count. *)
Lemma count_bits_top (n : nat) (i t m : Z) :
  0 <= m < Z.of_nat n -> 0 <= i < 2 ^ m -> 0 <= t <= 1 ->
  Z.of_nat (count_bits n (i + t * 2 ^ m)) = Z.of_nat (count_bits n i) + t.
Proof.
  intros Hm Hi Ht.
  rewrite <- lor_disjoint_add by (apply land_low_high; lia).
  rewrite count_bits_lor by (apply land_low_high; lia).
  assert (Hc : t = 0 \/ t = 1) by lia.
  destruct Hc as [-> | ->].
  - rewrite Z.mul_0_l, count_bits_0. lia.
  - rewrite Z.mul_1_l, count_bits_pow2 by lia.
    destruct (Z.ltb_spec m (Z.of_nat n)); lia.
Qed.

Lemma count_bits_double (n : nat) (i : Z) :
  count_bits (S n) (2 * i) = count_bits n i.
Proof.
  induction n as [|n IH].
  - cbn [count_bits]. simpl Z.of_nat. rewrite Z.testbit_even_0. reflexivity.
  - change (count_bits (S (S n)) (2 * i))
      with ((if Z.testbit (2 * i) (Z.of_nat (S n)) then 1 else 0)
            + count_bits (S n) (2 * i))%nat.
    rewrite IH. cbn [count_bits].
    rewrite Nat2Z.inj_succ, Z.double_bits_succ. reflexivity.
Qed.

(** A bit [t] put below a word shifted by one adds [t] to the population
    count. *)
Lemma count_bits_bottom (n : nat) (i t : Z) :
  0 <= i < 2 ^ Z.of_nat n -> 0 <= t <= 1 ->
  Z.of_nat (count_bits (S n) (2 * i + t)) = Z.of_nat (count_bits n i) + t.
Proof.
  intros Hi Ht.
  assert (Hd : Z.land (2 * i) t = 0).
  { apply Z.bits_inj'. intros j Hj. rewrite Z.land_spec, Z.bits_0.
    destruct (Z.eq_dec j 0) as [->|Hne].
    - rewrite Z.testbit_even_0. reflexivity.
    - rewrite (testbit_high 1 t j) by (simpl; lia). apply andb_false_r. }
  rewrite <- lor_disjoint_add, count_bits_lor, count_bits_double by assumption.
  assert (Hc : t = 0 \/ t = 1) by lia.
  destruct Hc as [-> | ->].
  - rewrite count_bits_0. lia.
  - change 1 with (2 ^ 0) at 1. rewrite count_bits_pow2 by lia.
    simpl. lia.
Qed.

Lemma CUDA_PARITY_mod (w : PetscIntKind) (x : Z) :
  CUDA_PARITY w x = CUDA_POPCOUNT w x mod 2.
Proof.
  unfold CUDA_PARITY. change 1 with (Z.ones 1). rewrite Z.land_ones by lia.
  reflexivity.
Qed.

Lemma lxor_bit (p s : Z) :
  0 <= p <= 1 -> 0 <= s <= 1 ->
  0 <= Z.lxor p s <= 1 /\ (p + Z.lxor p s) mod 2 = s /\ Z.lxor p s = Z.lxor s p.
Proof.
  intros Hp Hs.
  assert (Hp' : p = 0 \/ p = 1) by lia. assert (Hs' : s = 0 \/ s = 1) by lia.
  destruct Hp' as [-> | ->], Hs' as [-> | ->]; simpl; repeat split; lia.
Qed.

(** Completing a word of parity [p] with the bit [p xor s] gives parity [s]. *)
Lemma parity_completed (c s : Z) :
  0 <= s <= 1 -> (c + Z.lxor (c mod 2) s) mod 2 = s.
Proof.
  intros Hs.
  assert (Hc : 0 <= c mod 2 <= 1) by (pose proof (Z.mod_pos_bound c 2); lia).
  destruct (lxor_bit (c mod 2) s Hc Hs) as (Hb & Hsum & _).
  rewrite <- Hsum at 2. rewrite Zplus_mod_idemp_l. reflexivity.
Qed.

(** In a word of parity [s], a bit is the parity of the others xor [s]. *)
Lemma parity_determines_bit (c t s : Z) :
  0 <= t <= 1 -> (c + t) mod 2 = s -> t = Z.lxor (c mod 2) s.
Proof.
  intros Ht Hsum.
  assert (Hc : 0 <= c mod 2 <= 1) by (pose proof (Z.mod_pos_bound c 2); lia).
  rewrite <- Zplus_mod_idemp_l in Hsum.
  assert (Hc' : c mod 2 = 0 \/ c mod 2 = 1) by lia.
  assert (Ht' : t = 0 \/ t = 1) by lia.
  destruct Hc' as [Hc' | Hc']; rewrite Hc' in *;
    destruct Ht' as [-> | ->]; simpl in Hsum; subst s; reflexivity.
Qed.

Lemma wrap_bits_32_id (z : Z) : - 2 ^ 31 <= z < 2 ^ 31 -> wrap_bits 32 z = z.
Proof.
  intros Hz. unfold wrap_bits. change (2 ^ (32 - 1)) with 2147483648 in *.
  change (2 ^ 32) with 4294967296. change (2 ^ 31) with 2147483648 in Hz.
  rewrite Z.mod_small; lia.
Qed.

Lemma pow2_pred_double (L : Z) : 1 <= L -> 2 ^ L = 2 * 2 ^ (L - 1).
Proof. intros HL. rewrite <- Z.pow_succ_r by lia. f_equal. lia. Qed.

Lemma CUDA_POPCOUNT_top (w : PetscIntKind) (i t m : Z) :
  0 <= m < bits w -> 0 <= i < 2 ^ m -> 0 <= t <= 1 ->
  CUDA_POPCOUNT w (i + t * 2 ^ m) = CUDA_POPCOUNT w i + t.
Proof.
  intros Hm Hi Ht. unfold CUDA_POPCOUNT. apply count_bits_top; lia.
Qed.

Lemma CUDA_POPCOUNT_bottom (w : PetscIntKind) (i t : Z) :
  0 <= i < 2 ^ (bits w - 1) -> 0 <= t <= 1 ->
  CUDA_POPCOUNT w (2 * i + t) = CUDA_POPCOUNT w i + t.
Proof.
  intros Hi Ht. unfold CUDA_POPCOUNT. pose proof (bits_lower w).
  replace (Z.to_nat (bits w)) with (S (Z.to_nat (bits w - 1))) by lia.
  rewrite count_bits_bottom by (rewrite ?Z2Nat.id; lia).
  f_equal. f_equal. symmetry. apply count_bits_high; [lia|].
  intros j Hj. apply (testbit_high (bits w - 1)); lia.
Qed.

Section ParityHigh.
Variable w : PetscIntKind.
Variables L space : Z.
Hypothesis Hspace : 0 <= space <= 1.

Local Abbreviation d :=
  {| BcudaImpl.data_Parity.L := L; BcudaImpl.data_Parity.space := space |}.

Lemma high_mask : 1 <= L <= 31 -> BcudaImpl.PARITY_MASK w L = 2 ^ (L - 1) - 1.
Proof.
  intros HL. unfold BcudaImpl.PARITY_MASK, BcudaImpl.PARITY_BIT, sub.
  rewrite wrap_id by (apply is_PetscInt_small; lia).
  rewrite Z.shiftl_1_l.
  assert (0 < 2 ^ (L - 1)) by (apply Z.pow_pos_nonneg; lia).
  assert (2 ^ (L - 1) <= 2 ^ 30) by (apply Z.pow_le_mono_r; lia).
  rewrite (wrap_bits_32_id (2 ^ (L - 1))) by lia.
  rewrite wrap_bits_32_id by lia. reflexivity.
Qed.

Lemma high_encode (s : Z) :
  1 <= L <= 31 -> BcudaImpl.S2I_CUDA_Parity w s d = s mod 2 ^ (L - 1).
Proof.
  intros HL. unfold BcudaImpl.S2I_CUDA_Parity. cbn [BcudaImpl.data_Parity.L].
  rewrite high_mask by assumption.
  rewrite <- Z.land_ones by lia. rewrite Z.ones_equiv. reflexivity.
Qed.

Lemma high_decode (i : Z) :
  1 <= L < bits w -> 0 <= i < 2 ^ (L - 1) ->
  BcudaImpl.I2S_CUDA_Parity w i d
  = i + Z.lxor (CUDA_POPCOUNT w i mod 2) space * 2 ^ (L - 1).
Proof.
  intros HL Hi. unfold BcudaImpl.I2S_CUDA_Parity.
  cbn [BcudaImpl.data_Parity.L BcudaImpl.data_Parity.space].
  fold (CUDA_PARITY w i). rewrite CUDA_PARITY_mod, Z.lxor_comm.
  assert (Hc : 0 <= CUDA_POPCOUNT w i mod 2 <= 1)
    by (pose proof (Z.mod_pos_bound (CUDA_POPCOUNT w i) 2); lia).
  destruct (lxor_bit _ _ Hc Hspace) as (Hb & _).
  unfold sub, shl. pose proof (bits_upper w).
  rewrite (wrap_id w (L - 1)) by (apply is_PetscInt_small; lia).
  rewrite Z.shiftl_mul_pow2 by lia.
  assert (0 < 2 ^ (L - 1)) by (apply Z.pow_pos_nonneg; lia).
  rewrite wrap_id.
  - apply lor_disjoint_add, land_low_high; lia.
  - apply (is_PetscInt_below w L); [lia|].
    rewrite (pow2_pred_double L) by lia. nia.
Qed.

Lemma high_decode_sector (i : Z) :
  1 <= L < bits w -> 0 <= i < 2 ^ (L - 1) ->
  0 <= BcudaImpl.I2S_CUDA_Parity w i d < 2 ^ L
  /\ CUDA_POPCOUNT w (BcudaImpl.I2S_CUDA_Parity w i d) mod 2 = space.
Proof.
  intros HL Hi. rewrite high_decode by assumption.
  assert (Hc : 0 <= CUDA_POPCOUNT w i mod 2 <= 1)
    by (pose proof (Z.mod_pos_bound (CUDA_POPCOUNT w i) 2); lia).
  destruct (lxor_bit _ _ Hc Hspace) as (Hb & _).
  split.
  - rewrite (pow2_pred_double L) by lia. nia.
  - rewrite CUDA_POPCOUNT_top by lia. apply parity_completed. assumption.
Qed.

Lemma high_encode_decode (i : Z) :
  1 <= L <= 31 -> 0 <= i < 2 ^ (L - 1) ->
  BcudaImpl.S2I_CUDA_Parity w (BcudaImpl.I2S_CUDA_Parity w i d) d = i.
Proof.
  intros HL Hi. pose proof (bits_lower w).
  rewrite high_encode, high_decode by lia.
  rewrite Z_mod_plus_full. apply Z.mod_small. assumption.
Qed.

Lemma high_decode_encode (s : Z) :
  1 <= L <= 31 -> 0 <= s < 2 ^ L -> CUDA_POPCOUNT w s mod 2 = space ->
  0 <= BcudaImpl.S2I_CUDA_Parity w s d < 2 ^ (L - 1)
  /\ BcudaImpl.I2S_CUDA_Parity w (BcudaImpl.S2I_CUDA_Parity w s d) d = s.
Proof.
  intros HL Hs Hpar. pose proof (bits_lower w).
  rewrite high_encode by assumption.
  assert (Hp : 0 < 2 ^ (L - 1)) by (apply Z.pow_pos_nonneg; lia).
  pose proof (Z.mod_pos_bound s (2 ^ (L - 1)) Hp) as Hi.
  split; [assumption|].
  rewrite high_decode by lia.
  pose proof (Z.div_mod s (2 ^ (L - 1)) ltac:(lia)) as Hdm.
  assert (Ht : 0 <= s / 2 ^ (L - 1) <= 1).
  { rewrite (pow2_pred_double L) in Hs by lia.
    split; [apply Z.div_pos; lia|].
    assert (s / 2 ^ (L - 1) < 2) by (apply Z.div_lt_upper_bound; lia). lia. }
  rewrite Hdm in Hpar at 1.
  rewrite (Z.add_comm _ (s mod _)), (Z.mul_comm (2 ^ (L - 1))) in Hpar.
  rewrite CUDA_POPCOUNT_top in Hpar by lia.
  apply parity_determines_bit in Hpar; [|assumption].
  rewrite <- Hpar. lia.
Qed.
End ParityHigh.

Section ParityLow.
Variable w : PetscIntKind.
Variables L space : Z.
Hypothesis Hspace : 0 <= space <= 1.
Hypothesis HL : 1 <= L < bits w.

Local Abbreviation d :=
  {| Part000.data_Parity.L := L; Part000.data_Parity.space := space |}.

Lemma low_decode (i : Z) :
  0 <= i < 2 ^ (L - 1) ->
  Part000.I2S_CUDA_Parity w i d = 2 * i + Z.lxor (CUDA_POPCOUNT w i mod 2) space.
Proof.
  intros Hi. unfold Part000.I2S_CUDA_Parity. cbn [Part000.data_Parity.space].
  rewrite CUDA_PARITY_mod.
  assert (Hc : 0 <= CUDA_POPCOUNT w i mod 2 <= 1)
    by (pose proof (Z.mod_pos_bound (CUDA_POPCOUNT w i) 2); lia).
  destruct (lxor_bit _ _ Hc Hspace) as (Hb & _).
  unfold shl. rewrite Z.shiftl_mul_pow2 by lia. change (2 ^ 1) with 2.
  rewrite wrap_id.
  - rewrite Z.mul_comm. apply lor_disjoint_add.
    apply Z.bits_inj'. intros j Hj. rewrite Z.land_spec, Z.bits_0.
    destruct (Z.eq_dec j 0) as [->|Hne].
    + rewrite Z.testbit_even_0. reflexivity.
    + rewrite (testbit_high 1 (Z.lxor (CUDA_POPCOUNT w i mod 2) space) j)
        by (simpl; lia).
      apply andb_false_r.
  - apply (is_PetscInt_below w L); [lia|].
    rewrite (pow2_pred_double L) by lia. lia.
Qed.

Lemma low_index_range (i : Z) : 0 <= i < 2 ^ (L - 1) -> 0 <= i < 2 ^ (bits w - 1).
Proof.
  intros Hi. assert (2 ^ (L - 1) <= 2 ^ (bits w - 1)) by (apply Z.pow_le_mono_r; lia).
  lia.
Qed.

Lemma low_decode_sector (i : Z) :
  0 <= i < 2 ^ (L - 1) ->
  0 <= Part000.I2S_CUDA_Parity w i d < 2 ^ L
  /\ CUDA_POPCOUNT w (Part000.I2S_CUDA_Parity w i d) mod 2 = space.
Proof.
  intros Hi. rewrite low_decode by assumption.
  assert (Hc : 0 <= CUDA_POPCOUNT w i mod 2 <= 1)
    by (pose proof (Z.mod_pos_bound (CUDA_POPCOUNT w i) 2); lia).
  destruct (lxor_bit _ _ Hc Hspace) as (Hb & _).
  split.
  - rewrite (pow2_pred_double L) by lia. lia.
  - rewrite CUDA_POPCOUNT_bottom by (try apply low_index_range; lia).
    apply parity_completed. assumption.
Qed.

Lemma low_encode_decode (i : Z) :
  0 <= i < 2 ^ (L - 1) ->
  Part000.S2I_CUDA_Parity w (Part000.I2S_CUDA_Parity w i d) d = i.
Proof.
  intros Hi. destruct (low_decode_sector i Hi) as (_ & Hpar).
  unfold Part000.S2I_CUDA_Parity. cbn [Part000.data_Parity.space].
  rewrite CUDA_PARITY_mod, Hpar, Z.eqb_refl.
  rewrite low_decode by assumption.
  assert (Hc : 0 <= CUDA_POPCOUNT w i mod 2 <= 1)
    by (pose proof (Z.mod_pos_bound (CUDA_POPCOUNT w i) 2); lia).
  destruct (lxor_bit _ _ Hc Hspace) as (Hb & _).
  unfold shr. rewrite Z.shiftr_div_pow2 by lia. change (2 ^ 1) with 2.
  symmetry. apply Z.div_unique with (r := Z.lxor (CUDA_POPCOUNT w i mod 2) space); lia.
Qed.

Lemma low_decode_encode (s : Z) :
  0 <= s < 2 ^ L -> CUDA_POPCOUNT w s mod 2 = space ->
  0 <= Part000.S2I_CUDA_Parity w s d < 2 ^ (L - 1)
  /\ Part000.I2S_CUDA_Parity w (Part000.S2I_CUDA_Parity w s d) d = s.
Proof.
  intros Hs Hpar.
  unfold Part000.S2I_CUDA_Parity. cbn [Part000.data_Parity.space].
  rewrite CUDA_PARITY_mod, Hpar, Z.eqb_refl.
  unfold shr. rewrite Z.shiftr_div_pow2 by lia. change (2 ^ 1) with 2.
  pose proof (Z.div_mod s 2 ltac:(lia)) as Hdm.
  pose proof (Z.mod_pos_bound s 2 ltac:(lia)) as Ht.
  assert (Hi : 0 <= s / 2 < 2 ^ (L - 1)).
  { rewrite (pow2_pred_double L) in Hs by lia. lia. }
  split; [assumption|].
  rewrite low_decode by assumption.
  rewrite Hdm in Hpar at 1.
  rewrite CUDA_POPCOUNT_bottom in Hpar by (try apply low_index_range; lia).
  apply parity_determines_bit in Hpar; [|lia].
  rewrite <- Hpar. lia.
Qed.
End ParityLow.

(** C3, counterexample.  The encode of part_000 checks membership: the
    odd state [0b001] is not in the even sector and is answered with the
    sentinel, not with [state AND (2^(L-1) - 1)]. *)
Lemma Parity_encode_validates :
  Part000.S2I_CUDA_Parity Int64 1
    {| Part000.data_Parity.L := 3; Part000.data_Parity.space := 0 |} = -1
  /\ Part000.S2I_CUDA_Parity Int64 1
       {| Part000.data_Parity.L := 3; Part000.data_Parity.space := 0 |}
     <> Z.land 1 (2 ^ (3 - 1) - 1).
Proof. vm_compute. split; [reflexivity|discriminate]. Qed.

(** C3. Parity encode.  For [1 <= L <= 31] the encode of bcuda_impl.cu returns
    [state AND (2^(L-1) - 1)] and never the sentinel; the encode of part_000
    returns [state >> 1] when the parity of the state is [space] and the
    sentinel [-1] otherwise. *)
Theorem Parity_encode (w : PetscIntKind) (L space state : Z) :
  1 <= L <= 31 ->
  (BcudaImpl.S2I_CUDA_Parity w state
     {| BcudaImpl.data_Parity.L := L; BcudaImpl.data_Parity.space := space |}
   = Z.land state (2 ^ (L - 1) - 1)
   /\ BcudaImpl.S2I_CUDA_Parity w state
        {| BcudaImpl.data_Parity.L := L; BcudaImpl.data_Parity.space := space |}
      <> -1)
  /\ (CUDA_PARITY w state = space ->
      Part000.S2I_CUDA_Parity w state
        {| Part000.data_Parity.L := L; Part000.data_Parity.space := space |}
      = Z.shiftr state 1)
  /\ (CUDA_PARITY w state <> space ->
      Part000.S2I_CUDA_Parity w state
        {| Part000.data_Parity.L := L; Part000.data_Parity.space := space |}
      = -1).
Proof.
  intros HL. split; [|split].
  - rewrite high_encode by assumption.
    assert (Hp : 0 < 2 ^ (L - 1)) by (apply Z.pow_pos_nonneg; lia).
    pose proof (Z.mod_pos_bound state (2 ^ (L - 1)) Hp).
    split; [|lia].
    rewrite <- Z.land_ones by lia. rewrite Z.ones_equiv. reflexivity.
  - intros Hp. unfold Part000.S2I_CUDA_Parity. cbn [Part000.data_Parity.space].
    rewrite Hp, Z.eqb_refl. reflexivity.
  - intros Hp. unfold Part000.S2I_CUDA_Parity. cbn [Part000.data_Parity.space].
    destruct (Z.eqb_spec (CUDA_PARITY w state) space); [contradiction|reflexivity].
Qed.

Lemma Parity_encode_witness :
  BcudaImpl.S2I_CUDA_Parity Int64 6
    {| BcudaImpl.data_Parity.L := 3; BcudaImpl.data_Parity.space := 0 |}
  = Z.land 6 (2 ^ (3 - 1) - 1)
  /\ Part000.S2I_CUDA_Parity Int64 6
       {| Part000.data_Parity.L := 3; Part000.data_Parity.space := 0 |}
     = Z.shiftr 6 1
  /\ Part000.S2I_CUDA_Parity Int64 7
       {| Part000.data_Parity.L := 3; Part000.data_Parity.space := 0 |}
     = -1.
Proof.
  assert (HL : 1 <= 3 <= 31) by lia.
  split; [|split].
  - exact (proj1 (proj1 (Parity_encode Int64 3 0 6 HL))).
  - apply (proj1 (proj2 (Parity_encode Int64 3 0 6 HL))). reflexivity.
  - apply (proj2 (proj2 (Parity_encode Int64 3 0 7 HL))). vm_compute. discriminate.
Defined.

(** C6. Parity invariant.  For [1 <= L < bits], a parity flag 0 or 1 and
    an index of [[0, 2^(L-1))], the state decoded by either implementation
    has a population count of parity [space]. *)
Theorem Parity_decode_parity (w : PetscIntKind) (L space idx : Z) :
  1 <= L < bits w ->
  0 <= space <= 1 ->
  0 <= idx < 2 ^ (L - 1) ->
  CUDA_POPCOUNT w
    (BcudaImpl.I2S_CUDA_Parity w idx
       {| BcudaImpl.data_Parity.L := L; BcudaImpl.data_Parity.space := space |})
    mod 2 = space
  /\ CUDA_POPCOUNT w
       (Part000.I2S_CUDA_Parity w idx
          {| Part000.data_Parity.L := L; Part000.data_Parity.space := space |})
       mod 2 = space.
Proof.
  intros HL Hs Hi. split.
  - apply high_decode_sector; assumption.
  - apply low_decode_sector; assumption.
Qed.

Lemma Parity_decode_parity_witness :
  CUDA_POPCOUNT Int32
    (BcudaImpl.I2S_CUDA_Parity Int32 5
       {| BcudaImpl.data_Parity.L := 4; BcudaImpl.data_Parity.space := 1 |})
    mod 2 = 1
  /\ CUDA_POPCOUNT Int32
       (Part000.I2S_CUDA_Parity Int32 5
          {| Part000.data_Parity.L := 4; Part000.data_Parity.space := 1 |})
       mod 2 = 1.
Proof.
  apply (Parity_decode_parity Int32 4 1 5); simpl; lia.
Defined.

(** Where the mask of bcuda_impl.cu fits an [int] the Parity codecs are
    bijections.  For either implementation, decode maps [[0, 2^(L-1))] into
    the parity sector with encode as a left inverse, and encode maps the
    sector into [[0, 2^(L-1))] with decode as a left inverse (bcuda_impl.cu:
    [1 <= L <= 31]; part_000: [1 <= L < bits]).  For [L = 3] and parity 0
    the indices 0..3 decode to [0, 5, 6, 3] and to [0, 3, 5, 6], and the
    sector is [{0, 3, 5, 6}]. *)
Theorem Parity_bijection (w : PetscIntKind) (L space : Z) :
  0 <= space <= 1 ->
  (1 <= L <= 31 ->
   (forall i, 0 <= i < 2 ^ (L - 1) ->
      in_sector w L space
        (BcudaImpl.I2S_CUDA_Parity w i
           {| BcudaImpl.data_Parity.L := L; BcudaImpl.data_Parity.space := space |})
      /\ BcudaImpl.S2I_CUDA_Parity w
           (BcudaImpl.I2S_CUDA_Parity w i
              {| BcudaImpl.data_Parity.L := L; BcudaImpl.data_Parity.space := space |})
           {| BcudaImpl.data_Parity.L := L; BcudaImpl.data_Parity.space := space |}
         = i)
   /\ (forall s, in_sector w L space s ->
      0 <= BcudaImpl.S2I_CUDA_Parity w s
             {| BcudaImpl.data_Parity.L := L; BcudaImpl.data_Parity.space := space |}
        < 2 ^ (L - 1)
      /\ BcudaImpl.I2S_CUDA_Parity w
           (BcudaImpl.S2I_CUDA_Parity w s
              {| BcudaImpl.data_Parity.L := L; BcudaImpl.data_Parity.space := space |})
           {| BcudaImpl.data_Parity.L := L; BcudaImpl.data_Parity.space := space |}
         = s))
  /\ (1 <= L < bits w ->
      (forall i, 0 <= i < 2 ^ (L - 1) ->
         in_sector w L space
           (Part000.I2S_CUDA_Parity w i
              {| Part000.data_Parity.L := L; Part000.data_Parity.space := space |})
         /\ Part000.S2I_CUDA_Parity w
              (Part000.I2S_CUDA_Parity w i
                 {| Part000.data_Parity.L := L; Part000.data_Parity.space := space |})
              {| Part000.data_Parity.L := L; Part000.data_Parity.space := space |}
            = i)
      /\ (forall s, in_sector w L space s ->
         0 <= Part000.S2I_CUDA_Parity w s
                {| Part000.data_Parity.L := L; Part000.data_Parity.space := space |}
           < 2 ^ (L - 1)
         /\ Part000.I2S_CUDA_Parity w
              (Part000.S2I_CUDA_Parity w s
                 {| Part000.data_Parity.L := L; Part000.data_Parity.space := space |})
              {| Part000.data_Parity.L := L; Part000.data_Parity.space := space |}
            = s))
  /\ map (fun i => BcudaImpl.I2S_CUDA_Parity w i
                     {| BcudaImpl.data_Parity.L := 3; BcudaImpl.data_Parity.space := 0 |})
         [0; 1; 2; 3] = [0; 5; 6; 3]
  /\ map (fun i => Part000.I2S_CUDA_Parity w i
                     {| Part000.data_Parity.L := 3; Part000.data_Parity.space := 0 |})
         [0; 1; 2; 3] = [0; 3; 5; 6]
  /\ (forall s, in_sector w 3 0 s <-> In s [0; 3; 5; 6]).
Proof.
  intros Hs. pose proof (bits_lower w) as Hw.
  split; [|split; [|split; [|split]]].
  - intros HL. split.
    + intros i Hi. split.
      * apply high_decode_sector; [assumption|lia|assumption].
      * apply high_encode_decode; assumption.
    + intros s (Hr & Hp). apply high_decode_encode; assumption.
  - intros HL. split.
    + intros i Hi. split.
      * apply low_decode_sector; assumption.
      * apply low_encode_decode; assumption.
    + intros s (Hr & Hp). apply low_decode_encode; assumption.
  - destruct w; vm_compute; reflexivity.
  - destruct w; vm_compute; reflexivity.
  - intros s. unfold in_sector. split.
    + intros (Hr & Hp). change (2 ^ 3) with 8 in Hr.
      assert (Hc : s = 0 \/ s = 1 \/ s = 2 \/ s = 3 \/ s = 4 \/ s = 5 \/ s = 6 \/ s = 7)
        by lia.
      repeat (destruct Hc as [->|Hc];
              [first [simpl; tauto | destruct w; vm_compute in Hp; discriminate Hp]|]).
      subst s. destruct w; vm_compute in Hp; discriminate Hp.
    + simpl. intros [<-|[<-|[<-|[<-|[]]]]];
        (split; [lia | destruct w; vm_compute; reflexivity]).
Qed.

Lemma Parity_bijection_witness :
  BcudaImpl.S2I_CUDA_Parity Int64
    (BcudaImpl.I2S_CUDA_Parity Int64 2
       {| BcudaImpl.data_Parity.L := 3; BcudaImpl.data_Parity.space := 0 |})
    {| BcudaImpl.data_Parity.L := 3; BcudaImpl.data_Parity.space := 0 |} = 2
  /\ Part000.I2S_CUDA_Parity Int64
       (Part000.S2I_CUDA_Parity Int64 5
          {| Part000.data_Parity.L := 3; Part000.data_Parity.space := 0 |})
       {| Part000.data_Parity.L := 3; Part000.data_Parity.space := 0 |} = 5.
Proof.
  assert (Hs : 0 <= 0 <= 1) by lia.
  pose proof (Parity_bijection Int64 3 0 Hs) as (Hhigh & Hlow & _).
  split.
  - assert (HL : 1 <= 3 <= 31) by lia.
    apply (proj1 (Hhigh HL)). simpl. lia.
  - assert (HL : 1 <= 3 < bits Int64) by (simpl; lia).
    apply (proj2 (Hlow HL)). split; [simpl; lia|reflexivity].
Defined.

(** C8. The encode of bcuda_impl.cu is not the inverse of its decode on 33
    sites with a 64-bit [PetscInt].  [PARITY_MASK(L)] is [(1<<(L-1))-1] on
    the [int] literal [1]: reduced to 32 bits [1<<32] is 0 and the mask is
    [-1], where [2^32 - 1] is needed.  Index 1 decodes to [2^32 + 1], a
    state of the sector (the decode shifts in the width of [PetscInt]), and
    the encode of that state is [2^32 + 1] again, not 1. *)
Theorem Parity_high_mask_L33 :
  BcudaImpl.PARITY_MASK Int64 33 = -1
  /\ BcudaImpl.I2S_CUDA_Parity Int64 1 parity_33 = 4294967297
  /\ in_sector Int64 33 0 (BcudaImpl.I2S_CUDA_Parity Int64 1 parity_33)
  /\ BcudaImpl.S2I_CUDA_Parity Int64
       (BcudaImpl.I2S_CUDA_Parity Int64 1 parity_33) parity_33 = 4294967297
  /\ BcudaImpl.S2I_CUDA_Parity Int64
       (BcudaImpl.I2S_CUDA_Parity Int64 1 parity_33) parity_33 <> 1.
Proof.
  split; [reflexivity|]. split; [reflexivity|]. split.
  - split; [vm_compute; split; [discriminate|reflexivity]|reflexivity].
  - split; [reflexivity|vm_compute; discriminate].
Qed.

(** No value of an [int] can serve as the mask on 33 sites: index [2^31]
    decodes to [2^31 + 2^32], and a mask that keeps bit 31 of it is
    negative, so that it keeps bit 32 as well. *)
Lemma Parity_high_no_int_mask (m : Z) :
  - 2 ^ 31 <= m < 2 ^ 31 ->
  BcudaImpl.I2S_CUDA_Parity Int64 (2 ^ 31) parity_33 = 2 ^ 31 + 2 ^ 32
  /\ Z.land (BcudaImpl.I2S_CUDA_Parity Int64 (2 ^ 31) parity_33) m <> 2 ^ 31.
Proof.
  intros Hm. split; [reflexivity|].
  replace (BcudaImpl.I2S_CUDA_Parity Int64 (2 ^ 31) parity_33)
    with (2 ^ 31 + 2 ^ 32) by reflexivity.
  intros Heq.
  assert (H31 : Z.testbit (Z.land (2 ^ 31 + 2 ^ 32) m) 31 = true)
    by (rewrite Heq; reflexivity).
  assert (H32 : Z.testbit (Z.land (2 ^ 31 + 2 ^ 32) m) 32 = false)
    by (rewrite Heq; reflexivity).
  rewrite Z.land_spec in H31, H32.
  change (Z.testbit (2 ^ 31 + 2 ^ 32) 31) with true in H31.
  change (Z.testbit (2 ^ 31 + 2 ^ 32) 32) with true in H32.
  cbn [andb] in H31, H32.
  apply Z.testbit_true in H31; [|lia].
  apply Z.testbit_false in H32; [|lia].
  change (2 ^ 31) with 2147483648 in *. change (2 ^ 32) with 4294967296 in *.
  destruct (Z.lt_ge_cases m 0) as [Hneg|Hpos].
  - assert (Hq : m / 4294967296 = -1)
      by (symmetry; apply Z.div_unique with (r := m + 4294967296); lia).
    rewrite Hq in H32. discriminate.
  - rewrite Z.div_small in H31 by lia. discriminate.
Qed.

(** ** Auto: binary search *)

Lemma rd_Fault_index (arr : list Z) (i j : Z) : rd arr i = Fault j -> j = i.
Proof.
  unfold rd. destruct (i <? 0); [congruence|].
  destruct (nth_error arr (Z.to_nat i)); congruence.
Qed.

Lemma rd_past_end (arr : list Z) (i : Z) :
  Z.of_nat (length arr) <= i -> rd arr i = Fault i.
Proof.
  intros Hi. unfold rd. destruct (Z.ltb_spec i 0); [reflexivity|].
  destruct (nth_error arr (Z.to_nat i)) eqn:E; [|reflexivity].
  assert (Z.to_nat i < length arr)%nat by (apply nth_error_Some; congruence).
  lia.
Qed.

Lemma rd_In (arr : list Z) (i v : Z) : rd arr i = Done v -> In v arr.
Proof.
  unfold rd. destruct (i <? 0); [discriminate|].
  destruct (nth_error arr (Z.to_nat i)) eqn:E; [|discriminate].
  intros [= <-]. eapply nth_error_In; eassumption.
Qed.

Section AutoSearch.
Variable w : PetscIntKind.
Variable d : Part000.data_Auto.t.
Variable state : Z.

Local Abbreviation dim := (Part000.data_Auto.dim d).
Local Abbreviation rmap_states := (Part000.data_Auto.rmap_states d).

Hypothesis Hdim : 0 <= dim <= PetscInt_max w.

(** The midpoint is computed without overflow and lies in the range. *)
Lemma midpoint (left right : Z) :
  0 <= left <= right -> right <= dim ->
  add w left (div w (sub w right left) 2) = left + (right - left) / 2
  /\ left <= left + (right - left) / 2 <= right.
Proof.
  intros Hl Hr.
  assert (Hrange : forall z, 0 <= z <= dim -> is_PetscInt w z).
  { intros z Hz. apply is_PetscInt_range. lia. }
  unfold add, div, sub.
  rewrite (wrap_id w (right - left)) by (apply Hrange; lia).
  rewrite Z.quot_div_nonneg by lia.
  assert (Hq : 0 <= (right - left) / 2 <= right - left).
  { split; [apply Z.div_pos; lia|].
    apply Z.div_le_upper_bound; lia. }
  rewrite (wrap_id w ((right - left) / 2)) by (apply Hrange; lia).
  rewrite wrap_id by (apply Hrange; lia).
  lia.
Qed.

Hypothesis Hlen : Z.of_nat (length rmap_states) <= PetscInt_max w.

(** A pass that does not return narrows the range. *)
Lemma S2I_step_Auto_decreases (left right l' r' : Z) :
  0 <= left <= right -> right <= dim ->
  Part000.S2I_step_Auto w state d left right = Part000.Continue l' r' ->
  0 <= l' /\ r' <= dim /\ r' - l' < right - left.
Proof.
  intros Hl Hr. unfold Part000.S2I_step_Auto. cbv zeta.
  destruct (midpoint left right Hl Hr) as (-> & Hmid).
  destruct (rd rmap_states (left + (right - left) / 2)) as [v|i] eqn:Hrd;
    [|discriminate].
  apply rd_Done_bounds in Hrd.
  destruct (v =? state).
  { destruct (rd _ _); discriminate. }
  destruct (v <? state); intros [= <- <-].
  - unfold add. rewrite wrap_id by (apply is_PetscInt_range; lia). lia.
  - unfold sub. rewrite wrap_id by (apply is_PetscInt_range; lia). lia.
Qed.

Lemma S2I_while_Auto_stops (m : nat) (left right : Z) :
  0 <= left -> right <= dim ->
  (Z.to_nat (right - left + 1) <= m)%nat ->
  exists r, forall fuel, (m <= fuel)%nat ->
    Part000.S2I_while_Auto w fuel state d left right = Some r.
Proof.
  revert left right. induction m as [|m IH]; intros left right Hl Hr Hm.
  - exists (Done (-1)). intros fuel _.
    destruct fuel; cbn [Part000.S2I_while_Auto];
      destruct (Z.leb_spec left right); try lia; reflexivity.
  - destruct (Z.leb_spec left right) as [Hle|Hgt].
    + destruct (Part000.S2I_step_Auto w state d left right) as [v|l' r'|i] eqn:Hstep.
      * exists (Done v). intros [|fuel] Hf; [lia|].
        cbn [Part000.S2I_while_Auto].
        destruct (Z.leb_spec left right); [|lia]. rewrite Hstep. reflexivity.
      * destruct (S2I_step_Auto_decreases left right l' r' ltac:(lia) Hr Hstep)
          as (Hl' & Hr' & Hdec).
        destruct (IH l' r' Hl' Hr' ltac:(lia)) as (r & Hrun).
        exists r. intros [|fuel] Hf; [lia|].
        cbn [Part000.S2I_while_Auto].
        destruct (Z.leb_spec left right); [|lia]. rewrite Hstep.
        apply Hrun. lia.
      * exists (Fault i). intros [|fuel] Hf; [lia|].
        cbn [Part000.S2I_while_Auto].
        destruct (Z.leb_spec left right); [|lia]. rewrite Hstep. reflexivity.
    + exists (Done (-1)). intros fuel _.
      destruct fuel; cbn [Part000.S2I_while_Auto];
        destruct (Z.leb_spec left right); try lia; reflexivity.
Qed.

(** A state above every entry drives [left] up to [dim], where the next
    read is one past the end of [rmap_states]. *)
Lemma S2I_while_Auto_above (m : nat) (left : Z) :
  Z.of_nat (length rmap_states) = dim ->
  Forall (fun v => v < state) rmap_states ->
  0 <= left <= dim ->
  (Z.to_nat (dim - left + 1) <= m)%nat ->
  forall fuel, (m <= fuel)%nat ->
    Part000.S2I_while_Auto w fuel state d left dim = Some (Fault dim).
Proof.
  intros Hlen' Hall. revert left.
  induction m as [|m IH]; intros left Hl Hm fuel Hf; [lia|].
  destruct fuel as [|fuel]; [lia|].
  cbn [Part000.S2I_while_Auto].
  destruct (Z.leb_spec left dim) as [_|]; [|lia].
  unfold Part000.S2I_step_Auto. cbv zeta.
  destruct (midpoint left dim ltac:(lia) ltac:(lia)) as (-> & Hmid).
  destruct (Z.eq_dec left dim) as [->|Hne].
  - rewrite Z.sub_diag. change (0 / 2) with 0. rewrite Z.add_0_r.
    rewrite rd_past_end by lia. reflexivity.
  - assert (Hlt : left + (dim - left) / 2 < dim).
    { assert ((dim - left) / 2 < dim - left)
        by (apply Z.div_lt_upper_bound; lia). lia. }
    destruct (rd rmap_states (left + (dim - left) / 2)) as [v|i] eqn:Hrd.
    + assert (Hv : v < state).
      { apply rd_In in Hrd. rewrite Forall_forall in Hall. apply Hall, Hrd. }
      destruct (Z.eqb_spec v state); [lia|].
      destruct (Z.ltb_spec v state); [|lia].
      unfold add at 1. rewrite wrap_id by (apply is_PetscInt_range; lia).
      apply IH; lia.
    + pose proof (rd_Fault_index _ _ _ Hrd) as ->.
      unfold rd in Hrd. destruct (Z.ltb_spec (left + (dim - left) / 2) 0); [lia|].
      destruct (nth_error rmap_states (Z.to_nat (left + (dim - left) / 2))) eqn:E;
        [discriminate|].
      apply nth_error_None in E. lia.
Qed.
End AutoSearch.

(** C10. Termination of the binary search.  For [0 <= dim], a pass of the
    loop that does not return keeps [0 <= left], [right <= dim] and
    strictly decreases [right - left]; the loop ends within [dim + 1]
    passes, with a result that does not depend on the fuel. *)
Theorem Auto_search_terminates (w : PetscIntKind) (d : Part000.data_Auto.t)
        (state : Z) :
  0 <= Part000.data_Auto.dim d <= PetscInt_max w ->
  Z.of_nat (length (Part000.data_Auto.rmap_states d)) <= PetscInt_max w ->
  (forall left right l' r',
      0 <= left <= right -> right <= Part000.data_Auto.dim d ->
      Part000.S2I_step_Auto w state d left right = Part000.Continue l' r' ->
      0 <= l' /\ r' <= Part000.data_Auto.dim d /\ r' - l' < right - left)
  /\ exists r, forall fuel,
        (Z.to_nat (Part000.data_Auto.dim d + 1) <= fuel)%nat ->
        Part000.S2I_CUDA_Auto w fuel state d = Some r.
Proof.
  intros Hdim Hlen. split.
  - intros left right l' r'. apply S2I_step_Auto_decreases; assumption.
  - unfold Part000.S2I_CUDA_Auto.
    apply (S2I_while_Auto_stops w d state Hdim Hlen); lia.
Qed.

Lemma Auto_search_terminates_witness :
  exists r, forall fuel,
      (Z.to_nat (Part000.data_Auto.dim auto_159 + 1) <= fuel)%nat ->
      Part000.S2I_CUDA_Auto Int64 fuel 7 auto_159 = Some r.
Proof.
  apply (Auto_search_terminates Int64 auto_159 7).
  - vm_compute. split; discriminate.
  - vm_compute. discriminate.
Defined.

(** C2. Reads of the binary search.  Searching [10] in the sorted map
    [[1; 5; 9]] ([dim = 3]) reads [rmap_states[3]], one past the end,
    instead of returning [-1]; with an empty map ([dim = 0]) the first pass
    reads [rmap_states[0]]. *)
Theorem Auto_search_reads_past_end (w : PetscIntKind) (fuel : nat) :
  Part000.S2I_CUDA_Auto w (3 + fuel) 10 auto_159 = Some (Fault 3)
  /\ Part000.S2I_CUDA_Auto w (1 + fuel) 0 auto_empty = Some (Fault 0).
Proof.
  destruct w; split; reflexivity.
Qed.

(** The same happens for every state above all the entries of a
    well-formed map. *)
Lemma Auto_search_above_all (w : PetscIntKind) (d : Part000.data_Auto.t)
      (state : Z) (fuel : nat) :
  0 <= Part000.data_Auto.dim d <= PetscInt_max w ->
  Z.of_nat (length (Part000.data_Auto.rmap_states d)) = Part000.data_Auto.dim d ->
  Forall (fun v => v < state) (Part000.data_Auto.rmap_states d) ->
  (Z.to_nat (Part000.data_Auto.dim d + 1) <= fuel)%nat ->
  Part000.S2I_CUDA_Auto w fuel state d = Some (Fault (Part000.data_Auto.dim d)).
Proof.
  intros Hdim Hlen Hall Hfuel. unfold Part000.S2I_CUDA_Auto.
  apply S2I_while_Auto_above with (m := Z.to_nat (Part000.data_Auto.dim d + 1));
    try assumption; lia.
Qed.

(** ** Device transfer *)


Ltac run_calls :=
  unfold Part000.CopySubspaceData_CUDA_SpinConserve,
         Part000.CopySubspaceData_CUDA_Auto,
         Part000.mbind, Part000.PetscMemcpy, Part000.cudaMalloc,
         Part000.cudaMemcpy, Part000.CHKERRCUDA, Part000.CHKERRQ,
         Part000.ret, Part000.next_code, fails_at;
  cbn [Part000.pending Part000.live Part000.fresh fst snd app repeat Z.eqb].

Ltac give_allocs :=
  match goal with
  | |- exists _, ?x :: ?y :: ?z :: ?t :: _ = _ /\ _ => exists [x; y; z; t]
  | |- exists _, ?x :: ?y :: ?z :: _ = _ /\ _ => exists [x; y; z]
  | |- exists _, ?x :: ?y :: _ = _ /\ _ => exists [x; y]
  | |- exists _, ?x :: _ = _ /\ _ => exists [x]
  | |- exists _, _ = _ /\ _ => exists []
  end; split; reflexivity.

(** C4. Failure of a device transfer.  When the call number [j] (counting
    from 0) of a transfer is the first to fail, with code [e], the routine
    returns [e] to its caller, and the [j / 2] device allocations made
    before that call are still live: nothing is released. *)
Theorem CopySubspaceData_failure (w : PetscIntKind) (szS szA : Z)
        (dS : Part000.data_SpinConserve.t) (dA : Part000.data_Auto.t)
        (r : Part000.runtime) (j : nat) (e : Z) :
  e <> 0 ->
  ((j < 5)%nat ->
   fst (Part000.CopySubspaceData_CUDA_SpinConserve w szS dS (fails_at r j e)) = Part000.Err e
   /\ exists allocs,
       Part000.live (snd (Part000.CopySubspaceData_CUDA_SpinConserve w szS dS (fails_at r j e)))
       = allocs ++ Part000.live r
       /\ length allocs = (j / 2)%nat)
  /\ ((j < 9)%nat ->
   fst (Part000.CopySubspaceData_CUDA_Auto w szA dA (fails_at r j e)) = Part000.Err e
   /\ exists allocs,
       Part000.live (snd (Part000.CopySubspaceData_CUDA_Auto w szA dA (fails_at r j e)))
       = allocs ++ Part000.live r
       /\ length allocs = (j / 2)%nat).
Proof.
  intros He.
  destruct e as [|p|p]; [contradiction| |];
    (split; intros Hj;
     [ do 5 (destruct j as [|j];
             [run_calls; split; [reflexivity|give_allocs]|]); lia
     | do 9 (destruct j as [|j];
             [run_calls; split; [reflexivity|give_allocs]|]); lia ]).
Qed.

Lemma CopySubspaceData_failure_witness :
  fst (Part000.CopySubspaceData_CUDA_SpinConserve Int64 32 d42
         (fails_at {| Part000.live := []; Part000.fresh := 100; Part000.pending := [] |}
                   3 2))
  = Part000.Err 2.
Proof.
  refine (proj1 (proj1 (CopySubspaceData_failure Int64 32 56 d42
                          {| Part000.data_Auto.dim := 0;
                             Part000.data_Auto.state_map := [];
                             Part000.data_Auto.rmap_indices := [];
                             Part000.data_Auto.rmap_states := [] |}
                          _ 3 2 _) _)).
  - discriminate.
  - lia.
Defined.

(** C4, counterexample.  The second [cudaMalloc] of the SpinConserve
    transfer fails: the error is returned and the table allocated by the
    first one stays live. *)
Lemma CopySubspaceData_leaks :
  Part000.CopySubspaceData_CUDA_SpinConserve Int64 32 d42
    {| Part000.live := []; Part000.fresh := 100; Part000.pending := [0; 0; 0; 2] |}
  = (Part000.Err 2,
     {| Part000.live := [(100, 96)]; Part000.fresh := 101; Part000.pending := [] |})
  /\ In (100, 96)
        (Part000.live
           (snd (Part000.CopySubspaceData_CUDA_SpinConserve Int64 32 d42
                   {| Part000.live := []; Part000.fresh := 100;
                      Part000.pending := [0; 0; 0; 2] |}))).
Proof. split; [reflexivity|left; reflexivity]. Qed.

(** * Further properties *)

(** ** Auto: what the binary search computes *)

Lemma rd_in_range (arr : list Z) (i : Z) :
  0 <= i < Z.of_nat (length arr) -> exists v, rd arr i = Done v.
Proof.
  intros Hi. unfold rd. destruct (Z.ltb_spec i 0); [lia|].
  destruct (nth_error arr (Z.to_nat i)) eqn:E; [eauto|].
  apply nth_error_None in E. lia.
Qed.

Lemma rd_cons (a : Z) (arr : list Z) (i : Z) :
  0 < i -> rd (a :: arr) i = match rd arr (i - 1) with
                             | Done v => Done v
                             | Fault _ => Fault i
                             end.
Proof.
  intros Hi. unfold rd.
  destruct (Z.ltb_spec i 0); [lia|]. destruct (Z.ltb_spec (i - 1) 0); [lia|].
  replace (Z.to_nat i) with (S (Z.to_nat (i - 1))) by lia. cbn [nth_error].
  destruct (nth_error arr (Z.to_nat (i - 1))); reflexivity.
Qed.

Lemma sorted_rd (arr : list Z) :
  StronglySorted Z.lt arr ->
  forall i j a b, i < j -> rd arr i = Done a -> rd arr j = Done b -> a < b.
Proof.
  induction 1 as [|x l Hs IH Hall]; intros i j a b Hij Hi Hj.
  - unfold rd in Hi. destruct (i <? 0); [discriminate|].
    destruct (Z.to_nat i); discriminate.
  - pose proof (rd_Done_bounds _ _ _ Hi) as Bi.
    rewrite rd_cons in Hj by lia.
    destruct (rd l (j - 1)) as [v|] eqn:Ej; [|discriminate].
    injection Hj as ->.
    destruct (Z.eq_dec i 0) as [->|Hne].
    + unfold rd in Hi. simpl in Hi. injection Hi as ->.
      rewrite Forall_forall in Hall. apply Hall. eapply rd_In; eassumption.
    + rewrite rd_cons in Hi by lia.
      destruct (rd l (i - 1)) as [u|] eqn:Ei; [|discriminate].
      injection Hi as ->. apply (IH (i - 1) (j - 1)); try assumption; lia.
Qed.

Section AutoFound.
Variable w : PetscIntKind.
Variable d : Part000.data_Auto.t.
Variable state : Z.
Hypothesis Hwf : wf_Auto w d.

Local Abbreviation dim := (Part000.data_Auto.dim d).
Local Abbreviation rmap_states := (Part000.data_Auto.rmap_states d).
Local Abbreviation rmap_indices := (Part000.data_Auto.rmap_indices d).

Lemma midpoint_below_dim (left right q : Z) :
  0 <= left <= right -> right <= dim -> left <= q < dim ->
  left + (right - left) / 2 < dim.
Proof.
  intros Hl Hr Hq.
  destruct (Z.eq_dec right dim) as [->|Hne].
  - assert ((dim - left) / 2 < dim - left) by (apply Z.div_lt_upper_bound; lia). lia.
  - assert ((right - left) / 2 <= right - left)
      by (apply Z.div_le_upper_bound; lia). lia.
Qed.

(** While the range holds the position of [state], the search returns the
    index stored at that position. *)
Lemma S2I_while_Auto_found (m : nat) (left right p r : Z) :
  rd rmap_states p = Done state ->
  rd rmap_indices p = Done r ->
  0 <= left <= p -> p <= right <= dim ->
  (Z.to_nat (right - left + 1) <= m)%nat ->
  forall fuel, (m <= fuel)%nat ->
    Part000.S2I_while_Auto w fuel state d left right = Some (Done r).
Proof.
  intros Hp Hr. destruct Hwf as (Hdim & Hls & Hli & Hsorted).
  pose proof (rd_Done_bounds _ _ _ Hp) as Bp.
  revert left right. induction m as [|m IH]; intros left right Hl Hrt Hm fuel Hf;
    [lia|].
  destruct fuel as [|fuel]; [lia|].
  cbn [Part000.S2I_while_Auto].
  destruct (Z.leb_spec left right); [|lia].
  unfold Part000.S2I_step_Auto. cbv zeta.
  destruct (midpoint w d Hdim left right ltac:(lia) ltac:(lia)) as (-> & Hmid).
  pose proof (midpoint_below_dim left right p ltac:(lia) ltac:(lia) ltac:(lia)) as Hlt.
  destruct (rd_in_range rmap_states (left + (right - left) / 2) ltac:(lia))
    as (v & Hv).
  rewrite Hv.
  destruct (Z.eqb_spec v state) as [->|Hne].
  - assert (left + (right - left) / 2 = p) as ->.
    { destruct (Z.lt_trichotomy (left + (right - left) / 2) p) as [Hc|[Hc|Hc]];
        [|assumption|].
      - pose proof (sorted_rd _ Hsorted _ _ _ _ Hc Hv Hp). lia.
      - pose proof (sorted_rd _ Hsorted _ _ _ _ Hc Hp Hv). lia. }
    rewrite Hr. reflexivity.
  - destruct (Z.ltb_spec v state) as [Hlo|Hhi].
    + assert (left + (right - left) / 2 < p).
      { destruct (Z.lt_trichotomy (left + (right - left) / 2) p) as [Hc|[Hc|Hc]];
          [assumption| |].
        - rewrite Hc in Hv. congruence.
        - pose proof (sorted_rd _ Hsorted _ _ _ _ Hc Hp Hv). lia. }
      unfold add at 1. rewrite wrap_id by (apply is_PetscInt_range; lia).
      apply IH; lia.
    + assert (p < left + (right - left) / 2).
      { destruct (Z.lt_trichotomy (left + (right - left) / 2) p) as [Hc|[Hc|Hc]];
          [| |assumption].
        - pose proof (sorted_rd _ Hsorted _ _ _ _ Hc Hv Hp). lia.
        - rewrite Hc in Hv. congruence. }
      unfold sub at 1. rewrite wrap_id by (apply is_PetscInt_range; lia).
      apply IH; lia.
Qed.

(** While some entry at or after [left] is above an absent [state], and
    the entries before [left] are below it, the search ends with [-1]. *)
Lemma S2I_while_Auto_absent (m : nat) (left right q u : Z) :
  (forall p, rd rmap_states p <> Done state) ->
  rd rmap_states q = Done u -> state < u ->
  (forall p v, 0 <= p < left -> rd rmap_states p = Done v -> v < state) ->
  0 <= left -> right <= dim ->
  (Z.to_nat (right - left + 1) <= m)%nat ->
  forall fuel, (m <= fuel)%nat ->
    Part000.S2I_while_Auto w fuel state d left right = Some (Done (-1)).
Proof.
  intros Habs Hq Hu. destruct Hwf as (Hdim & Hls & Hli & Hsorted).
  pose proof (rd_Done_bounds _ _ _ Hq) as Bq.
  revert left right. induction m as [|m IH]; intros left right Hlow Hl Hrt Hm fuel Hf.
  - destruct fuel; cbn [Part000.S2I_while_Auto];
      destruct (Z.leb_spec left right); try lia; reflexivity.
  - assert (Hlq : left <= q).
    { destruct (Z.le_gt_cases left q); [assumption|].
      pose proof (Hlow q u ltac:(lia) Hq). lia. }
    destruct fuel as [|fuel].
    { lia. }
    cbn [Part000.S2I_while_Auto].
    destruct (Z.leb_spec left right); [|reflexivity].
    unfold Part000.S2I_step_Auto. cbv zeta.
    destruct (midpoint w d Hdim left right ltac:(lia) ltac:(lia)) as (-> & Hmid).
    pose proof (midpoint_below_dim left right q ltac:(lia) ltac:(lia) ltac:(lia)) as Hlt.
    destruct (rd_in_range rmap_states (left + (right - left) / 2) ltac:(lia))
      as (v & Hv).
    rewrite Hv.
    destruct (Z.eqb_spec v state) as [->|Hne].
    { exfalso. exact (Habs _ Hv). }
    destruct (Z.ltb_spec v state) as [Hlo|Hhi].
    + unfold add at 1. rewrite wrap_id by (apply is_PetscInt_range; lia).
      apply IH; try lia.
      intros p v' Hp Hv'.
      destruct (Z.eq_dec p (left + (right - left) / 2)) as [->|Hpm].
      * rewrite Hv in Hv'. injection Hv' as <-. assumption.
      * pose proof (sorted_rd _ Hsorted p (left + (right - left) / 2) v' v
                      ltac:(lia) Hv' Hv). lia.
    + unfold sub at 1. rewrite wrap_id by (apply is_PetscInt_range; lia).
      apply IH; try lia. assumption.
Qed.
End AutoFound.

Lemma S2I_CUDA_Auto_found (w : PetscIntKind) (d : Part000.data_Auto.t)
      (state p r : Z) (fuel : nat) :
  wf_Auto w d ->
  rd (Part000.data_Auto.rmap_states d) p = Done state ->
  rd (Part000.data_Auto.rmap_indices d) p = Done r ->
  (Z.to_nat (Part000.data_Auto.dim d + 1) <= fuel)%nat ->
  Part000.S2I_CUDA_Auto w fuel state d = Some (Done r).
Proof.
  intros Hwf Hp Hr Hfuel. unfold Part000.S2I_CUDA_Auto.
  pose proof (rd_Done_bounds _ _ _ Hp) as Bp.
  pose proof Hwf as (Hdim & Hls & _).
  apply (S2I_while_Auto_found w d state Hwf (Z.to_nat (Part000.data_Auto.dim d + 1))
           0 (Part000.data_Auto.dim d) p r); try assumption; lia.
Qed.

(** X1. The binary search finds every state of a well-formed sorted map:
    for a state stored at position [p] it returns [rmap_indices[p]], within
    [dim + 1] passes and without reading outside the arrays. *)
Theorem Auto_search_finds (w : PetscIntKind) (d : Part000.data_Auto.t)
        (state p r : Z) (fuel : nat) :
  wf_Auto w d ->
  rd (Part000.data_Auto.rmap_states d) p = Done state ->
  rd (Part000.data_Auto.rmap_indices d) p = Done r ->
  (Z.to_nat (Part000.data_Auto.dim d + 1) <= fuel)%nat ->
  Part000.S2I_CUDA_Auto w fuel state d = Some (Done r).
Proof.
  intros Hwf Hp Hr Hfuel.
  apply (S2I_CUDA_Auto_found w d state p r fuel); assumption.
Qed.

Lemma auto_perm_wf (w : PetscIntKind) : wf_Auto w auto_perm.
Proof.
  unfold wf_Auto. simpl. pose proof (bits_lower w).
  assert (2 ^ 31 <= 2 ^ (bits w - 1)) by (apply Z.pow_le_mono_r; lia).
  unfold PetscInt_max. repeat split; try lia.
  repeat constructor; lia.
Qed.

Lemma Auto_search_finds_witness :
  Part000.S2I_CUDA_Auto Int64 4 9 auto_perm = Some (Done 0).
Proof.
  apply (Auto_search_finds Int64 auto_perm 9 2 0 4 (auto_perm_wf Int64)).
  - reflexivity.
  - reflexivity.
  - simpl. lia.
Defined.

(** X2. For a state that is absent from a well-formed sorted map and has
    some entry above it, the search returns the sentinel [-1]. *)
Theorem Auto_search_absent (w : PetscIntKind) (d : Part000.data_Auto.t)
        (state q u : Z) (fuel : nat) :
  wf_Auto w d ->
  (forall p, rd (Part000.data_Auto.rmap_states d) p <> Done state) ->
  rd (Part000.data_Auto.rmap_states d) q = Done u -> state < u ->
  (Z.to_nat (Part000.data_Auto.dim d + 1) <= fuel)%nat ->
  Part000.S2I_CUDA_Auto w fuel state d = Some (Done (-1)).
Proof.
  intros Hwf Habs Hq Hu Hfuel. unfold Part000.S2I_CUDA_Auto.
  apply (S2I_while_Auto_absent w d state Hwf (Z.to_nat (Part000.data_Auto.dim d + 1))
           0 (Part000.data_Auto.dim d) q u); try assumption; try lia.
Qed.

Lemma Auto_search_absent_witness :
  Part000.S2I_CUDA_Auto Int64 4 7 auto_perm = Some (Done (-1)).
Proof.
  apply (Auto_search_absent Int64 auto_perm 7 2 9 4 (auto_perm_wf Int64)).
  - intros p Hp. pose proof (rd_In _ _ _ Hp) as Hin. simpl in Hin.
    destruct Hin as [H|[H|[H|[]]]]; discriminate H.
  - reflexivity.
  - lia.
  - simpl. lia.
Defined.

Lemma S2I_while_Auto_sound (w : PetscIntKind) (d : Part000.data_Auto.t)
      (state : Z) (fuel : nat) (left right r : Z) :
  Part000.S2I_while_Auto w fuel state d left right = Some (Done r) ->
  r = -1
  \/ exists p, rd (Part000.data_Auto.rmap_states d) p = Done state
               /\ rd (Part000.data_Auto.rmap_indices d) p = Done r.
Proof.
  revert left right. induction fuel as [|fuel IH]; intros left right;
    cbn [Part000.S2I_while_Auto]; destruct (left <=? right).
  - discriminate.
  - intros H. left. congruence.
  - unfold Part000.S2I_step_Auto. cbv zeta.
    set (mid := add w left (div w (sub w right left) 2)).
    destruct (rd (Part000.data_Auto.rmap_states d) mid) as [v|i] eqn:Hv.
    + destruct (Z.eqb_spec v state) as [->|Hne].
      * destruct (rd (Part000.data_Auto.rmap_indices d) mid) as [r'|i] eqn:Hr.
        -- intros H. right. exists mid. split; congruence.
        -- discriminate.
      * destruct (v <? state); apply IH.
    + discriminate.
  - intros H. left. congruence.
Qed.

(** X4. Whatever the arrays hold, sorted or not, a value returned by the
    search is the sentinel [-1] or the index stored beside an entry equal
    to the state. *)
Theorem Auto_search_sound (w : PetscIntKind) (d : Part000.data_Auto.t)
        (state : Z) (fuel : nat) (r : Z) :
  Part000.S2I_CUDA_Auto w fuel state d = Some (Done r) ->
  r = -1
  \/ exists p, rd (Part000.data_Auto.rmap_states d) p = Done state
               /\ rd (Part000.data_Auto.rmap_indices d) p = Done r.
Proof. apply S2I_while_Auto_sound. Qed.

Lemma Auto_search_sound_witness :
  2 = -1
  \/ exists p, rd (Part000.data_Auto.rmap_states auto_perm) p = Done 5
               /\ rd (Part000.data_Auto.rmap_indices auto_perm) p = Done 2.
Proof.
  apply (Auto_search_sound Int32 auto_perm 5 4 2). reflexivity.
Defined.

(** X5. Auto round trip.  When the sorted reverse map inverts [state_map],
    decoding the index found for a state of the map gives the state back,
    and encoding the state decoded from an index gives the index back. *)
Theorem Auto_roundtrip (w : PetscIntKind) (d : Part000.data_Auto.t) (fuel : nat) :
  wf_Auto w d ->
  rmap_inverts d ->
  (Z.to_nat (Part000.data_Auto.dim d + 1) <= fuel)%nat ->
  (forall state p,
      rd (Part000.data_Auto.rmap_states d) p = Done state ->
      exists idx,
        Part000.S2I_CUDA_Auto w fuel state d = Some (Done idx)
        /\ Part000.I2S_CUDA_Auto idx d = Done state)
  /\ (forall idx state,
      Part000.I2S_CUDA_Auto idx d = Done state ->
      Part000.S2I_CUDA_Auto w fuel state d = Some (Done idx)).
Proof.
  intros Hwf (Hfwd & Hbwd) Hfuel. split.
  - intros state p Hp.
    pose proof (rd_Done_bounds _ _ _ Hp) as Bp.
    pose proof Hwf as (Hdim & Hls & Hli & Hsorted).
    destruct (rd_in_range (Part000.data_Auto.rmap_indices d) p ltac:(lia))
      as (r & Hr).
    exists r. split.
    + apply (S2I_CUDA_Auto_found w d state p r fuel); assumption.
    + unfold Part000.I2S_CUDA_Auto. apply (Hfwd p); assumption.
  - intros idx state Hs. unfold Part000.I2S_CUDA_Auto in Hs.
    destruct (Hbwd idx state Hs) as (p & Hp & Hr).
    apply (S2I_CUDA_Auto_found w d state p idx fuel); assumption.
Qed.

Lemma auto_perm_inverts : rmap_inverts auto_perm.
Proof.
  split.
  - intros p s i Hs Hi. pose proof (rd_Done_bounds _ _ _ Hs) as Bp. simpl in Bp.
    assert (Hc : p = 0 \/ p = 1 \/ p = 2) by lia.
    destruct Hc as [->|[->| ->]]; vm_compute in Hs, Hi;
      injection Hs as <-; injection Hi as <-; reflexivity.
  - intros i s Hs. pose proof (rd_Done_bounds _ _ _ Hs) as Bi. simpl in Bi.
    assert (Hc : i = 0 \/ i = 1 \/ i = 2) by lia.
    destruct Hc as [->|[->| ->]]; vm_compute in Hs; injection Hs as <-.
    + exists 2. split; reflexivity.
    + exists 0. split; reflexivity.
    + exists 1. split; reflexivity.
Qed.

Lemma Auto_roundtrip_witness :
  (exists idx,
      Part000.S2I_CUDA_Auto Int64 4 5 auto_perm = Some (Done idx)
      /\ Part000.I2S_CUDA_Auto idx auto_perm = Done 5)
  /\ Part000.S2I_CUDA_Auto Int64 4 9 auto_perm = Some (Done 0).
Proof.
  assert (Hf : (Z.to_nat (Part000.data_Auto.dim auto_perm + 1) <= 4)%nat)
    by (simpl; lia).
  pose proof (Auto_roundtrip Int64 auto_perm 4 (auto_perm_wf Int64)
                auto_perm_inverts Hf) as (Hfwd & Hbwd).
  split.
  - apply (Hfwd 5 1). reflexivity.
  - apply (Hbwd 0 9). reflexivity.
Defined.

Section AutoBeyond.
Variable w : PetscIntKind.
Variable d : Part000.data_Auto.t.
Variable state : Z.

Local Abbreviation dim := (Part000.data_Auto.dim d).
Local Abbreviation rmap_states := (Part000.data_Auto.rmap_states d).
Local Abbreviation rmap_indices := (Part000.data_Auto.rmap_indices d).

Hypothesis Hdim : 0 <= dim < PetscInt_max w.
Hypothesis Hbelow :
  forall p, 0 <= p < dim -> exists v, rd rmap_states p = Done v /\ v < state.

(** With every entry below [state], the range closes on position [dim],
    and the word read there decides the result. *)
Lemma S2I_while_Auto_beyond (m : nat) (left : Z) :
  0 <= left <= dim ->
  (Z.to_nat (dim - left + 1) <= m)%nat ->
  forall fuel, (m <= fuel)%nat ->
    Part000.S2I_while_Auto w fuel state d left dim
    = Some (match rd rmap_states dim with
            | Fault i => Fault i
            | Done x => if x =? state then rd rmap_indices dim else Done (-1)
            end).
Proof.
  revert left. induction m as [|m IH]; intros left Hl Hm fuel Hf; [lia|].
  destruct fuel as [|fuel]; [lia|].
  cbn [Part000.S2I_while_Auto].
  destruct (Z.leb_spec left dim) as [_|]; [|lia].
  unfold Part000.S2I_step_Auto. cbv zeta.
  destruct (midpoint w d ltac:(lia) left dim ltac:(lia) ltac:(lia)) as (-> & Hmid).
  destruct (Z.eq_dec left dim) as [->|Hne].
  - rewrite Z.sub_diag. change (0 / 2) with 0. rewrite Z.add_0_r.
    destruct (rd rmap_states dim) as [x|i]; [|reflexivity].
    destruct (Z.eqb_spec x state) as [Hx|Hx].
    + destruct (rd rmap_indices dim); reflexivity.
    + destruct (Z.ltb_spec x state).
      * unfold add. rewrite wrap_id by (apply is_PetscInt_range; lia).
        destruct fuel; cbn [Part000.S2I_while_Auto];
          destruct (Z.leb_spec (dim + 1) dim); try lia; reflexivity.
      * unfold sub. rewrite wrap_id by (apply is_PetscInt_range; lia).
        destruct fuel; cbn [Part000.S2I_while_Auto];
          destruct (Z.leb_spec dim (dim - 1)); try lia; reflexivity.
  - assert (Hlt : left + (dim - left) / 2 < dim).
    { assert ((dim - left) / 2 < dim - left)
        by (apply Z.div_lt_upper_bound; lia). lia. }
    destruct (Hbelow (left + (dim - left) / 2) ltac:(lia)) as (v & Hv & Hvs).
    rewrite Hv.
    destruct (Z.eqb_spec v state); [lia|].
    destruct (Z.ltb_spec v state); [|lia].
    unfold add at 1. rewrite wrap_id by (apply is_PetscInt_range; lia).
    apply IH; lia.
Qed.
End AutoBeyond.

(** X3. For a state above all the [dim] entries of the reverse map, the
    search reads [rmap_states[dim]], one position past them, and what it
    finds there decides the result: the index [rmap_indices[dim]], also
    past the entries, when that word equals the state, and [-1] otherwise.
    When nothing lies behind the array the read is recorded as a fault at
    index [dim]. *)
Theorem Auto_search_past_end (w : PetscIntKind) (d : Part000.data_Auto.t)
        (state : Z) (fuel : nat) :
  0 <= Part000.data_Auto.dim d < PetscInt_max w ->
  (forall p, 0 <= p < Part000.data_Auto.dim d ->
     exists v, rd (Part000.data_Auto.rmap_states d) p = Done v /\ v < state) ->
  (Z.to_nat (Part000.data_Auto.dim d + 1) <= fuel)%nat ->
  Part000.S2I_CUDA_Auto w fuel state d
  = Some (match rd (Part000.data_Auto.rmap_states d) (Part000.data_Auto.dim d) with
          | Fault i => Fault i
          | Done x =>
              if x =? state
              then rd (Part000.data_Auto.rmap_indices d) (Part000.data_Auto.dim d)
              else Done (-1)
          end).
Proof.
  intros Hdim Hbelow Hfuel. unfold Part000.S2I_CUDA_Auto.
  apply (S2I_while_Auto_beyond w d state Hdim Hbelow
           (Z.to_nat (Part000.data_Auto.dim d + 1))); lia.
Qed.

Lemma three_below (arr : list Z) (a b c : Z) (rest : list Z) (state : Z) :
  arr = a :: b :: c :: rest -> a < state -> b < state -> c < state ->
  forall p, 0 <= p < 3 -> exists v, rd arr p = Done v /\ v < state.
Proof.
  intros -> Ha Hb Hc p Hp.
  assert (Hcase : p = 0 \/ p = 1 \/ p = 2) by lia.
  destruct Hcase as [->|[->| ->]]; eexists; (split; [reflexivity|assumption]).
Qed.

Lemma Auto_search_past_end_witness :
  Part000.S2I_CUDA_Auto Int64 4 10 auto_pad = Some (Done 77)
  /\ Part000.S2I_CUDA_Auto Int64 4 11 auto_pad = Some (Done (-1))
  /\ Part000.S2I_CUDA_Auto Int64 4 10 auto_perm = Some (Fault 3).
Proof.
  assert (Hd : 0 <= 3 < PetscInt_max Int64)
    by (vm_compute; split; [discriminate|reflexivity]).
  assert (Hf : (Z.to_nat (3 + 1) <= 4)%nat) by (simpl; lia).
  split; [|split].
  - exact (Auto_search_past_end Int64 auto_pad 10 4 Hd
             (three_below _ 1 5 9 [10] 10 eq_refl ltac:(lia) ltac:(lia) ltac:(lia))
             Hf).
  - exact (Auto_search_past_end Int64 auto_pad 11 4 Hd
             (three_below _ 1 5 9 [10] 11 eq_refl ltac:(lia) ltac:(lia) ltac:(lia))
             Hf).
  - exact (Auto_search_past_end Int64 auto_perm 10 4 Hd
             (three_below _ 1 5 9 [] 10 eq_refl ltac:(lia) ltac:(lia) ltac:(lia))
             Hf).
Defined.

(** ** SpinConserve: safety and order *)

(** Among patterns of equal weight the rank grows with the pattern. *)
Lemma rank_mono (n : nat) (s t : Z) :
  count_bits n s = count_bits n t ->
  s mod 2 ^ Z.of_nat n < t mod 2 ^ Z.of_nat n ->
  rank n s < rank n t.
Proof.
  induction n as [|n IH]; intros Hc Hlt.
  - simpl in Hlt. rewrite !Z.mod_1_r in Hlt. lia.
  - rewrite !mod_pow2_succ in Hlt. cbn [rank count_bits] in *.
    assert (Hs : 0 <= s mod 2 ^ Z.of_nat n < 2 ^ Z.of_nat n)
      by (apply Z.mod_pos_bound, Z.pow_pos_nonneg; lia).
    assert (Ht : 0 <= t mod 2 ^ Z.of_nat n < 2 ^ Z.of_nat n)
      by (apply Z.mod_pos_bound, Z.pow_pos_nonneg; lia).
    destruct (Z.testbit s (Z.of_nat n)), (Z.testbit t (Z.of_nat n)).
    + rewrite Hc. assert (rank n s < rank n t) by (apply IH; lia). lia.
    + lia.
    + change (0 + count_bits n s)%nat with (count_bits n s) in Hc.
      rewrite <- Hc.
      pose proof (rank_bound n s). pose proof (rank_nonneg n t). lia.
    + assert (rank n s < rank n t) by (apply IH; lia). lia.
Qed.

Lemma member_count (w : PetscIntKind) (d : Part000.data_SpinConserve.t) (s : Z) :
  wf_SpinConserve w d ->
  0 <= s < 2 ^ Part000.data_SpinConserve.L d ->
  CUDA_POPCOUNT w s = Part000.data_SpinConserve.k d ->
  Z.of_nat (count_bits (Z.to_nat (Part000.data_SpinConserve.L d)) s)
  = Part000.data_SpinConserve.k d.
Proof.
  intros (HL & _) Hs Hp.
  rewrite <- (CUDA_POPCOUNT_low w) by (rewrite Z2Nat.id; lia). assumption.
Qed.

(** X8. Encoding preserves the order: of two states of the subspace the
    smaller one gets the smaller index. *)
Theorem SpinConserve_encode_increasing (w : PetscIntKind)
        (d : Part000.data_SpinConserve.t) (s t : Z) :
  wf_SpinConserve w d ->
  0 <= s -> s < t -> t < 2 ^ Part000.data_SpinConserve.L d ->
  CUDA_POPCOUNT w s = Part000.data_SpinConserve.k d ->
  CUDA_POPCOUNT w t = Part000.data_SpinConserve.k d ->
  exists i j,
    Part000.S2I_CUDA_SpinConserve w s d = Done i
    /\ Part000.S2I_CUDA_SpinConserve w t d = Done j
    /\ i < j.
Proof.
  intros Hwf Hs Hst Ht Hps Hpt. pose proof Hwf as (HL & _).
  exists (rank (Z.to_nat (Part000.data_SpinConserve.L d)) s),
         (rank (Z.to_nat (Part000.data_SpinConserve.L d)) t).
  split; [apply S2I_valid; try assumption; lia|].
  split; [apply S2I_valid; try assumption; lia|].
  apply rank_mono.
  - apply Nat2Z.inj.
    rewrite (member_count w d s), (member_count w d t); try assumption; lia.
  - rewrite Z2Nat.id by lia. rewrite !Z.mod_small; lia.
Qed.

Lemma SpinConserve_encode_increasing_witness :
  exists i j,
    Part000.S2I_CUDA_SpinConserve Int64 6 d42 = Done i
    /\ Part000.S2I_CUDA_SpinConserve Int64 9 d42 = Done j
    /\ i < j.
Proof.
  apply (SpinConserve_encode_increasing Int64 d42 6 9 (d42_wf Int64));
    try reflexivity; simpl; lia.
Defined.

(** X9. Decoding preserves the order: of two indices of [[0, C(L,k))] the
    smaller one decodes to the smaller state, so distinct indices decode to
    distinct states. *)
Theorem SpinConserve_decode_increasing (w : PetscIntKind)
        (d : Part000.data_SpinConserve.t) (i j : Z) :
  wf_SpinConserve w d ->
  0 <= i -> i < j ->
  j < choose (Part000.data_SpinConserve.L d) (Part000.data_SpinConserve.k d) ->
  exists s t,
    Part000.I2S_CUDA_SpinConserve w i d = Done s
    /\ Part000.I2S_CUDA_SpinConserve w j d = Done t
    /\ s < t.
Proof.
  intros Hwf Hi Hij Hj. pose proof Hwf as (HL & _).
  destruct (I2S_valid w d i Hwf ltac:(lia)) as (s & Hrs & Hs & Hps & Hks).
  destruct (I2S_valid w d j Hwf ltac:(lia)) as (t & Hrt & Ht & Hpt & Hkt).
  exists s, t. repeat split; try assumption.
  destruct (Z.lt_trichotomy s t) as [Hc|[Hc|Hc]]; [assumption| |].
  - subst t. lia.
  - exfalso.
    assert (rank (Z.to_nat (Part000.data_SpinConserve.L d)) t
            < rank (Z.to_nat (Part000.data_SpinConserve.L d)) s); [|lia].
    apply rank_mono.
    + apply Nat2Z.inj.
      rewrite (member_count w d s), (member_count w d t); try assumption; lia.
    + rewrite Z2Nat.id by lia. rewrite !Z.mod_small; lia.
Qed.

Lemma SpinConserve_decode_increasing_witness :
  exists s t,
    Part000.I2S_CUDA_SpinConserve Int64 1 d42 = Done s
    /\ Part000.I2S_CUDA_SpinConserve Int64 4 d42 = Done t
    /\ s < t.
Proof.
  apply (SpinConserve_decode_increasing Int64 d42 1 4 (d42_wf Int64)).
  - lia.
  - lia.
  - vm_compute. reflexivity.
Defined.

(** X6. With a correct table the encode is safe on every state, member or
    not: it never reads outside the table, and it returns the sentinel
    [-1] or an index of [[0, C(L,k))]. *)
Theorem SpinConserve_encode_safe (w : PetscIntKind)
        (d : Part000.data_SpinConserve.t) (state : Z) :
  wf_SpinConserve w d ->
  exists v,
    Part000.S2I_CUDA_SpinConserve w state d = Done v
    /\ (v = -1
        \/ 0 <= v < choose (Part000.data_SpinConserve.L d)
                          (Part000.data_SpinConserve.k d)).
Proof.
  intros Hwf. pose proof Hwf as (HL & Hk & _).
  destruct (Z.eq_dec (Z.shiftr state (Part000.data_SpinConserve.L d)) 0) as [Hz|Hz].
  - assert (Hs : 0 <= state).
    { destruct (Z.le_gt_cases 0 state); [assumption|].
      pose proof (proj2 (Z.shiftr_neg state (Part000.data_SpinConserve.L d))
                    ltac:(lia)). lia. }
    apply shiftr_zero_iff in Hz; [|lia|lia].
    destruct (Z.eq_dec (CUDA_POPCOUNT w state) (Part000.data_SpinConserve.k d))
      as [Hp|Hp].
    + exists (rank (Z.to_nat (Part000.data_SpinConserve.L d)) state).
      split; [apply S2I_valid; try assumption; lia|].
      right.
      pose proof (rank_nonneg (Z.to_nat (Part000.data_SpinConserve.L d)) state).
      pose proof (rank_bound (Z.to_nat (Part000.data_SpinConserve.L d)) state) as Hb.
      rewrite <- (member_count w d state Hwf ltac:(lia) Hp).
      replace (choose (Part000.data_SpinConserve.L d))
        with (choose (Z.of_nat (Z.to_nat (Part000.data_SpinConserve.L d))))
        by (rewrite Z2Nat.id; [reflexivity|lia]).
      rewrite choose_binom. lia.
    + exists (-1). split; [|left; reflexivity].
      unfold Part000.S2I_CUDA_SpinConserve, shr.
      destruct (Z.eqb_spec (Z.shiftr state (Part000.data_SpinConserve.L d)) 0);
        [|reflexivity].
      destruct (Z.eqb_spec (CUDA_POPCOUNT w state) (Part000.data_SpinConserve.k d));
        [contradiction|reflexivity].
  - exists (-1). split; [|left; reflexivity].
    unfold Part000.S2I_CUDA_SpinConserve, shr.
    destruct (Z.eqb_spec (Z.shiftr state (Part000.data_SpinConserve.L d)) 0);
      [contradiction|reflexivity].
Qed.

Lemma SpinConserve_encode_safe_witness :
  exists v,
    Part000.S2I_CUDA_SpinConserve Int64 (-5) d42 = Done v
    /\ (v = -1 \/ 0 <= v < choose 4 2).
Proof. exact (SpinConserve_encode_safe Int64 d42 (-5) (d42_wf Int64)). Defined.

(** X7. Every index of [[0, C(L,k))] decodes, without a read outside the
    table, to a state of width at most [L] and population count [k]. *)
Theorem SpinConserve_decode_member (w : PetscIntKind)
        (d : Part000.data_SpinConserve.t) (i : Z) :
  wf_SpinConserve w d ->
  0 <= i < choose (Part000.data_SpinConserve.L d) (Part000.data_SpinConserve.k d) ->
  exists s,
    Part000.I2S_CUDA_SpinConserve w i d = Done s
    /\ 0 <= s < 2 ^ Part000.data_SpinConserve.L d
    /\ CUDA_POPCOUNT w s = Part000.data_SpinConserve.k d.
Proof.
  intros Hwf Hi.
  destruct (I2S_valid w d i Hwf Hi) as (s & Hrun & Hs & Hp & _).
  exists s. repeat split; try assumption; lia.
Qed.

Lemma SpinConserve_decode_member_witness :
  exists s,
    Part000.I2S_CUDA_SpinConserve Int32 3 d42 = Done s
    /\ 0 <= s < 2 ^ 4
    /\ CUDA_POPCOUNT Int32 s = 2.
Proof.
  apply (SpinConserve_decode_member Int32 d42 3 (d42_wf Int32)).
  vm_compute. split; [discriminate|reflexivity].
Defined.

(** ** Parity: order *)

(** X10. The Parity codec of part_000 preserves the order in both
    directions: decode is increasing on [[0, 2^(L-1))] and encode is
    increasing on the parity sector. *)
Theorem Parity_low_increasing (w : PetscIntKind) (L space : Z) :
  1 <= L < bits w ->
  0 <= space <= 1 ->
  (forall i j, 0 <= i -> i < j -> j < 2 ^ (L - 1) ->
     Part000.I2S_CUDA_Parity w i
       {| Part000.data_Parity.L := L; Part000.data_Parity.space := space |}
     < Part000.I2S_CUDA_Parity w j
         {| Part000.data_Parity.L := L; Part000.data_Parity.space := space |})
  /\ (forall s t, in_sector w L space s -> in_sector w L space t -> s < t ->
     Part000.S2I_CUDA_Parity w s
       {| Part000.data_Parity.L := L; Part000.data_Parity.space := space |}
     < Part000.S2I_CUDA_Parity w t
         {| Part000.data_Parity.L := L; Part000.data_Parity.space := space |}).
Proof.
  intros HL Hsp.
  assert (Hdec : forall i j, 0 <= i -> i < j -> j < 2 ^ (L - 1) ->
     Part000.I2S_CUDA_Parity w i
       {| Part000.data_Parity.L := L; Part000.data_Parity.space := space |}
     < Part000.I2S_CUDA_Parity w j
         {| Part000.data_Parity.L := L; Part000.data_Parity.space := space |}).
  { intros i j Hi Hij Hj.
    rewrite !(low_decode w L space Hsp HL) by lia.
    assert (Hci : 0 <= CUDA_POPCOUNT w i mod 2 <= 1)
      by (pose proof (Z.mod_pos_bound (CUDA_POPCOUNT w i) 2); lia).
    assert (Hcj : 0 <= CUDA_POPCOUNT w j mod 2 <= 1)
      by (pose proof (Z.mod_pos_bound (CUDA_POPCOUNT w j) 2); lia).
    destruct (lxor_bit _ _ Hci Hsp) as (Hbi & _).
    destruct (lxor_bit _ _ Hcj Hsp) as (Hbj & _).
    lia. }
  split; [exact Hdec|].
  intros s t (Hs & Hps) (Ht & Hpt) Hst.
  destruct (low_decode_encode w L space Hsp HL s Hs Hps) as (Hrs & Hes).
  destruct (low_decode_encode w L space Hsp HL t Ht Hpt) as (Hrt & Het).
  set (a := Part000.S2I_CUDA_Parity w s
              {| Part000.data_Parity.L := L; Part000.data_Parity.space := space |}) in *.
  set (b := Part000.S2I_CUDA_Parity w t
              {| Part000.data_Parity.L := L; Part000.data_Parity.space := space |}) in *.
  destruct (Z.lt_trichotomy a b) as [Hc|[Hc|Hc]]; [assumption| |].
  - rewrite Hc in Hes. lia.
  - pose proof (Hdec b a ltac:(lia) Hc ltac:(lia)). lia.
Qed.

Lemma Parity_low_increasing_witness :
  Part000.I2S_CUDA_Parity Int64 1
    {| Part000.data_Parity.L := 3; Part000.data_Parity.space := 0 |}
  < Part000.I2S_CUDA_Parity Int64 2
      {| Part000.data_Parity.L := 3; Part000.data_Parity.space := 0 |}
  /\ Part000.S2I_CUDA_Parity Int64 3
       {| Part000.data_Parity.L := 3; Part000.data_Parity.space := 0 |}
     < Part000.S2I_CUDA_Parity Int64 6
         {| Part000.data_Parity.L := 3; Part000.data_Parity.space := 0 |}.
Proof.
  assert (HL : 1 <= 3 < bits Int64) by (simpl; lia).
  assert (Hs : 0 <= 0 <= 1) by lia.
  pose proof (Parity_low_increasing Int64 3 0 HL Hs) as (Hdec & Henc).
  split.
  - apply Hdec; simpl; lia.
  - apply Henc; [split; [simpl; lia|reflexivity]..|lia].
Defined.

(** ** Transfer and teardown *)

Lemma Forall_zero_tl (l : list Z) :
  Forall (fun c => c = 0) l -> Forall (fun c => c = 0) (tl l).
Proof. intros H. destruct H; [constructor|assumption]. Qed.

Lemma next_code_ok (r : Part000.runtime) :
  no_failure r ->
  Part000.next_code r
  = (0, {| Part000.live := Part000.live r;
           Part000.fresh := Part000.fresh r;
           Part000.pending := tl (Part000.pending r) |}).
Proof.
  unfold no_failure, Part000.next_code. destruct r as [lv fr pd]. simpl.
  intros H. destruct H as [|c cs Hc Hcs]; [reflexivity|]. subst c. reflexivity.
Qed.

Lemma filter_fresh (l : list (Z * Z)) (f p : Z) :
  Forall (fun a => fst a < f) l -> f <= p ->
  filter (fun a => negb (fst a =? p)) l = l.
Proof.
  intros Hl Hp. induction Hl as [|a l Ha Hl IH]; [reflexivity|].
  cbn [filter]. destruct (Z.eqb_spec (fst a) p); [lia|].
  cbn [negb]. now rewrite IH.
Qed.

Lemma load_head (m : list (Z * list Z)) (p : Z) (ws : list Z) :
  Transfer.load ((p, ws) :: m) p = ws.
Proof. unfold Transfer.load. cbn [find fst]. now rewrite Z.eqb_refl. Qed.

Lemma load_skip (m : list (Z * list Z)) (p q : Z) (ws : list Z) :
  p <> q -> Transfer.load ((q, ws) :: m) p = Transfer.load m p.
Proof.
  intros H. unfold Transfer.load. cbn [find fst].
  destruct (Z.eqb_spec q p); [congruence|reflexivity].
Qed.

Ltac unfold_calls :=
  unfold Transfer.CopySubspaceData_CUDA_Full, Transfer.DestroySubspaceData_CUDA_Full,
         Transfer.CopySubspaceData_CUDA_Parity, Transfer.DestroySubspaceData_CUDA_Parity,
         Transfer.CopySubspaceData_CUDA_SpinConserve,
         Transfer.DestroySubspaceData_CUDA_SpinConserve,
         Transfer.CopySubspaceData_CUDA_Auto, Transfer.DestroySubspaceData_CUDA_Auto,
         Transfer.CopySubspaceData_CUDA_Auto_dense,
         Transfer.DestroySubspaceData_CUDA_Auto_dense,
         Transfer.tbind, Transfer.tret,
         Transfer.cudaMalloc, Transfer.cudaFree, Transfer.PetscMemcpy,
         Transfer.CHKERRCUDA, Transfer.CHKERRQ,
         Transfer.cudaMemcpy_HostToDevice, Transfer.cudaMemcpy_DeviceToHost,
         Transfer.lift,
         Part000.cudaMalloc, Part000.cudaFree, Part000.PetscMemcpy,
         Part000.CHKERRCUDA, Part000.CHKERRQ.

Ltac reduce_calls :=
  cbn [fst snd Transfer.rt Transfer.mem Part000.live Part000.fresh Part000.pending
       Z.eqb nth filter negb].

Ltac calls_succeed H :=
  reduce_calls;
  repeat (rewrite next_code_ok
            by (unfold no_failure; cbn [Part000.pending];
                repeat apply Forall_zero_tl; exact H);
          reduce_calls).

Ltac addresses Hfr :=
  repeat first
    [ rewrite load_head
    | rewrite load_skip by lia
    | rewrite Z.eqb_refl
    | rewrite (proj2 (Z.eqb_neq _ _)) by lia
    | rewrite (filter_fresh _ _ _ Hfr) by lia
    | progress reduce_calls ].


(** Byte counts: twelve 64-bit entries take 96 bytes, and a negative
    length gives a count just below [2^64]. *)
Example size_t_byte_counts :
  size_t (Part000.sizeof_PetscInt Int64 * 12) = 96
  /\ size_t (Part000.sizeof_PetscInt Int64 * -1) = 2 ^ 64 - 8
  /\ size_t (Part000.sizeof_PetscInt Int32 * -1) = 2 ^ 64 - 4.
Proof. repeat split. Qed.

(** X12. SpinConserve life cycle.  When no runtime call fails, the transfer
    allocates the table and the structure, and the teardown of the handle
    it returns frees both: the live allocations are those from before the
    transfer.  The byte count of the table is
    [sizeof(PetscInt) * ((k+1) * ld_nchoosek)], the inner product in
    [PetscInt] and the outer one in [size_t], so modulo [2^64]. *)
Theorem SpinConserve_transfer_teardown (w : PetscIntKind) (sz : Z)
        (in_ : Part000.data_SpinConserve.t) (s : Transfer.store) :
  no_failure (Transfer.rt s) ->
  fresh_above (Transfer.rt s) ->
  exists h s1 s2,
    Transfer.CopySubspaceData_CUDA_SpinConserve w sz in_ s = (Part000.Ok h, s1)
    /\ Part000.live (Transfer.rt s1)
       = (h, sz)
         :: (Part000.fresh (Transfer.rt s),
             size_t (Part000.sizeof_PetscInt w
                     * mul w (add w (Part000.data_SpinConserve.k in_) 1)
                             (Part000.data_SpinConserve.ld_nchoosek in_)))
         :: Part000.live (Transfer.rt s)
    /\ Transfer.DestroySubspaceData_CUDA_SpinConserve h s1 = (Part000.Ok tt, s2)
    /\ Part000.live (Transfer.rt s2) = Part000.live (Transfer.rt s).
Proof.
  destruct s as [[lv fr pd] m]. unfold no_failure, fresh_above. cbn.
  intros Hok Hfr.
  eexists _, _, _. split; [|split; [|split]].
  - unfold_calls. calls_succeed Hok. reflexivity.
  - reflexivity.
  - unfold_calls. calls_succeed Hok. addresses Hfr. reflexivity.
  - cbn. addresses Hfr. reflexivity.
Qed.

(** X13. Auto life cycle (part_000).  When no runtime call fails, the
    transfer allocates three arrays and the structure, and the teardown of
    the handle frees the four of them.  The byte count of each array is
    [sizeof(PetscInt) * dim] in [size_t], so modulo [2^64]. *)
Theorem Auto_transfer_teardown (w : PetscIntKind) (sz : Z)
        (in_ : Part000.data_Auto.t) (s : Transfer.store) :
  no_failure (Transfer.rt s) ->
  fresh_above (Transfer.rt s) ->
  exists h s1 s2,
    Transfer.CopySubspaceData_CUDA_Auto w sz in_ s = (Part000.Ok h, s1)
    /\ Part000.live (Transfer.rt s1)
       = (h, sz)
         :: (Part000.fresh (Transfer.rt s) + 1 + 1,
             size_t (Part000.sizeof_PetscInt w * Part000.data_Auto.dim in_))
         :: (Part000.fresh (Transfer.rt s) + 1,
             size_t (Part000.sizeof_PetscInt w * Part000.data_Auto.dim in_))
         :: (Part000.fresh (Transfer.rt s),
             size_t (Part000.sizeof_PetscInt w * Part000.data_Auto.dim in_))
         :: Part000.live (Transfer.rt s)
    /\ Transfer.DestroySubspaceData_CUDA_Auto h s1 = (Part000.Ok tt, s2)
    /\ Part000.live (Transfer.rt s2) = Part000.live (Transfer.rt s).
Proof.
  destruct s as [[lv fr pd] m]. unfold no_failure, fresh_above. cbn.
  intros Hok Hfr.
  eexists _, _, _. split; [|split; [|split]].
  - unfold_calls. calls_succeed Hok. reflexivity.
  - reflexivity.
  - unfold_calls. calls_succeed Hok. addresses Hfr. reflexivity.
  - cbn. addresses Hfr. reflexivity.
Qed.

(** X14. Auto life cycle (bcuda_impl.cu).  When no runtime call fails, the
    transfer allocates [state_map], [state_rmap] and the structure, and the
    teardown of the handle frees the three of them.  The byte counts of the
    arrays are [sizeof(PetscInt) * dim] and [sizeof(PetscInt) * rdim] in
    [size_t], so modulo [2^64]. *)
Theorem Auto_dense_transfer_teardown (w : PetscIntKind) (sz : Z)
        (in_ : BcudaImpl.data_Auto.t) (s : Transfer.store) :
  no_failure (Transfer.rt s) ->
  fresh_above (Transfer.rt s) ->
  exists h s1 s2,
    Transfer.CopySubspaceData_CUDA_Auto_dense w sz in_ s = (Part000.Ok h, s1)
    /\ Part000.live (Transfer.rt s1)
       = (h, sz)
         :: (Part000.fresh (Transfer.rt s) + 1,
             size_t (Part000.sizeof_PetscInt w * BcudaImpl.data_Auto.rdim in_))
         :: (Part000.fresh (Transfer.rt s),
             size_t (Part000.sizeof_PetscInt w * BcudaImpl.data_Auto.dim in_))
         :: Part000.live (Transfer.rt s)
    /\ Transfer.DestroySubspaceData_CUDA_Auto_dense h s1 = (Part000.Ok tt, s2)
    /\ Part000.live (Transfer.rt s2) = Part000.live (Transfer.rt s).
Proof.
  destruct s as [[lv fr pd] m]. unfold no_failure, fresh_above. cbn.
  intros Hok Hfr.
  eexists _, _, _. split; [|split; [|split]].
  - unfold_calls. calls_succeed Hok. reflexivity.
  - reflexivity.
  - unfold_calls. calls_succeed Hok. addresses Hfr. reflexivity.
  - cbn. addresses Hfr. reflexivity.
Qed.

(** X11. Full and Parity life cycle.  When no runtime call fails, the
    transfer makes one allocation, which holds a copy of the host
    structure, and the teardown frees it. *)
Theorem Full_Parity_transfer_teardown (szF szP : Z) (inF : list Z)
        (inP : Part000.data_Parity.t) (s : Transfer.store) :
  no_failure (Transfer.rt s) ->
  fresh_above (Transfer.rt s) ->
  (exists s1 s2,
      Transfer.CopySubspaceData_CUDA_Full szF inF s
      = (Part000.Ok (Part000.fresh (Transfer.rt s)), s1)
      /\ Part000.live (Transfer.rt s1)
         = (Part000.fresh (Transfer.rt s), szF) :: Part000.live (Transfer.rt s)
      /\ Transfer.load (Transfer.mem s1) (Part000.fresh (Transfer.rt s)) = inF
      /\ Transfer.DestroySubspaceData_CUDA_Full (Part000.fresh (Transfer.rt s)) s1
         = (Part000.Ok tt, s2)
      /\ Part000.live (Transfer.rt s2) = Part000.live (Transfer.rt s))
  /\ (exists s1 s2,
      Transfer.CopySubspaceData_CUDA_Parity szP inP s
      = (Part000.Ok (Part000.fresh (Transfer.rt s)), s1)
      /\ Part000.live (Transfer.rt s1)
         = (Part000.fresh (Transfer.rt s), szP) :: Part000.live (Transfer.rt s)
      /\ Transfer.load (Transfer.mem s1) (Part000.fresh (Transfer.rt s))
         = [Part000.data_Parity.L inP; Part000.data_Parity.space inP]
      /\ Transfer.DestroySubspaceData_CUDA_Parity (Part000.fresh (Transfer.rt s)) s1
         = (Part000.Ok tt, s2)
      /\ Part000.live (Transfer.rt s2) = Part000.live (Transfer.rt s)).
Proof.
  destruct s as [[lv fr pd] m]. unfold no_failure, fresh_above. cbn.
  intros Hok Hfr.
  split; eexists _, _; (split; [|split; [|split; [|split]]]).
  - unfold_calls. calls_succeed Hok. reflexivity.
  - reflexivity.
  - cbn. apply load_head.
  - unfold_calls. calls_succeed Hok. addresses Hfr. reflexivity.
  - cbn. addresses Hfr. reflexivity.
  - unfold_calls. calls_succeed Hok. reflexivity.
  - reflexivity.
  - cbn. apply load_head.
  - unfold_calls. calls_succeed Hok. addresses Hfr. reflexivity.
  - cbn. addresses Hfr. reflexivity.
Qed.




(** The transfers above perform the allocations of the routines of
    [Part000], which do not follow the contents of memory, and return what
    they return. *)
Lemma CopySubspaceData_CUDA_SpinConserve_runtime (w : PetscIntKind) (sz : Z)
      (in_ : Part000.data_SpinConserve.t) (s : Transfer.store) :
  fst (Transfer.CopySubspaceData_CUDA_SpinConserve w sz in_ s)
  = fst (Part000.CopySubspaceData_CUDA_SpinConserve w sz in_ (Transfer.rt s))
  /\ Transfer.rt (snd (Transfer.CopySubspaceData_CUDA_SpinConserve w sz in_ s))
     = snd (Part000.CopySubspaceData_CUDA_SpinConserve w sz in_ (Transfer.rt s)).
Proof.
  destruct s as [[lv fr pd] m].
  unfold_calls. unfold Part000.CopySubspaceData_CUDA_SpinConserve, Part000.mbind,
    Part000.ret, Part000.cudaMalloc, Part000.cudaMemcpy, Part000.PetscMemcpy,
    Part000.CHKERRCUDA, Part000.CHKERRQ, Part000.next_code.
  cbn [Transfer.rt Transfer.mem Part000.pending Part000.live Part000.fresh].
  do 5 (destruct pd as [|[|c|c] pd];
        cbn [fst snd Transfer.rt Transfer.mem Part000.pending Part000.live
             Part000.fresh Z.eqb];
        try (split; reflexivity)).
Qed.

Lemma CopySubspaceData_CUDA_Auto_runtime (w : PetscIntKind) (sz : Z)
      (in_ : Part000.data_Auto.t) (s : Transfer.store) :
  fst (Transfer.CopySubspaceData_CUDA_Auto w sz in_ s)
  = fst (Part000.CopySubspaceData_CUDA_Auto w sz in_ (Transfer.rt s))
  /\ Transfer.rt (snd (Transfer.CopySubspaceData_CUDA_Auto w sz in_ s))
     = snd (Part000.CopySubspaceData_CUDA_Auto w sz in_ (Transfer.rt s)).
Proof.
  destruct s as [[lv fr pd] m].
  unfold_calls. unfold Part000.CopySubspaceData_CUDA_Auto, Part000.mbind,
    Part000.ret, Part000.cudaMalloc, Part000.cudaMemcpy, Part000.PetscMemcpy,
    Part000.CHKERRCUDA, Part000.CHKERRQ, Part000.next_code.
  cbn [Transfer.rt Transfer.mem Part000.pending Part000.live Part000.fresh].
  do 9 (destruct pd as [|[|c|c] pd];
        cbn [fst snd Transfer.rt Transfer.mem Part000.pending Part000.live
             Part000.fresh Z.eqb];
        try (split; reflexivity)).
Qed.

Lemma length_filter_fresh (l : list (Z * Z)) (f p : Z) :
  Forall (fun a => fst a < f) l -> f <= p ->
  length (filter (fun a => negb (fst a =? p)) l) = length l.
Proof. intros Hl Hp. now rewrite (filter_fresh l f p Hl Hp). Qed.

(** X17. Failure of a teardown.  When call number [j] (from 0) of the
    teardown of a transferred structure fails with code [e], the teardown
    returns [e] and stops: the frees made before it are [j - 1] (the first
    call is the read-back), and the other allocations of the transfer stay
    live. *)
Theorem Destroy_failure (w : PetscIntKind) (szS szA : Z)
        (dS : Part000.data_SpinConserve.t) (dA : Part000.data_Auto.t)
        (s : Transfer.store) (j : nat) (e : Z) :
  e <> 0 ->
  fresh_above (Transfer.rt s) ->
  ((j < 3)%nat ->
   exists h s1,
     Transfer.CopySubspaceData_CUDA_SpinConserve w szS dS
       {| Transfer.rt := fails_at (Transfer.rt s) (5 + j) e;
          Transfer.mem := Transfer.mem s |} = (Part000.Ok h, s1)
     /\ fst (Transfer.DestroySubspaceData_CUDA_SpinConserve h s1) = Part000.Err e
     /\ length (Part000.live
                  (Transfer.rt (snd (Transfer.DestroySubspaceData_CUDA_SpinConserve h s1))))
        = (length (Part000.live (Transfer.rt s)) + (2 - (j - 1)))%nat)
  /\ ((j < 5)%nat ->
   exists h s1,
     Transfer.CopySubspaceData_CUDA_Auto w szA dA
       {| Transfer.rt := fails_at (Transfer.rt s) (9 + j) e;
          Transfer.mem := Transfer.mem s |} = (Part000.Ok h, s1)
     /\ fst (Transfer.DestroySubspaceData_CUDA_Auto h s1) = Part000.Err e
     /\ length (Part000.live
                  (Transfer.rt (snd (Transfer.DestroySubspaceData_CUDA_Auto h s1))))
        = (length (Part000.live (Transfer.rt s)) + (4 - (j - 1)))%nat).
Proof.
  intros He Hfr. destruct s as [[lv fr pd] m]. unfold fresh_above in Hfr.
  cbn in Hfr.
  destruct e as [|p|p]; [contradiction| |];
    (split; intros Hj;
     [ do 3 (destruct j as [|j];
             [eexists _, _; split;
              [unfold_calls; unfold Part000.next_code, fails_at;
               cbn [repeat app Nat.add]; reduce_calls; reflexivity
              |unfold_calls; unfold Part000.next_code;
               reduce_calls; addresses Hfr;
               split; [reflexivity|cbn [length]; lia]]|]); lia
     | do 5 (destruct j as [|j];
             [eexists _, _; split;
              [unfold_calls; unfold Part000.next_code, fails_at;
               cbn [repeat app Nat.add]; reduce_calls; reflexivity
              |unfold_calls; unfold Part000.next_code;
               reduce_calls; addresses Hfr;
               split; [reflexivity|cbn [length]; lia]]|]); lia ]).
Qed.

Lemma store_0_ok : no_failure (Transfer.rt store_0) /\ fresh_above (Transfer.rt store_0).
Proof. split; repeat constructor. Qed.

Lemma Full_Parity_transfer_teardown_witness :
  exists s1 s2,
    Transfer.CopySubspaceData_CUDA_Parity 16
      {| Part000.data_Parity.L := 3; Part000.data_Parity.space := 0 |} store_0
    = (Part000.Ok (Part000.fresh (Transfer.rt store_0)), s1)
    /\ Part000.live (Transfer.rt s1)
       = (Part000.fresh (Transfer.rt store_0), 16)
         :: Part000.live (Transfer.rt store_0)
    /\ Transfer.load (Transfer.mem s1) (Part000.fresh (Transfer.rt store_0)) = [3; 0]
    /\ Transfer.DestroySubspaceData_CUDA_Parity (Part000.fresh (Transfer.rt store_0)) s1
       = (Part000.Ok tt, s2)
    /\ Part000.live (Transfer.rt s2) = Part000.live (Transfer.rt store_0).
Proof.
  exact (proj2 (Full_Parity_transfer_teardown 8 16 [3]
                  {| Part000.data_Parity.L := 3; Part000.data_Parity.space := 0 |}
                  store_0 (proj1 store_0_ok) (proj2 store_0_ok))).
Defined.

Lemma SpinConserve_transfer_teardown_witness :
  exists h s1 s2,
    Transfer.CopySubspaceData_CUDA_SpinConserve Int64 32 d42 store_0
    = (Part000.Ok h, s1)
    /\ Part000.live (Transfer.rt s1)
       = (h, 32)
         :: (Part000.fresh (Transfer.rt store_0),
             96)
         :: Part000.live (Transfer.rt store_0)
    /\ Transfer.DestroySubspaceData_CUDA_SpinConserve h s1 = (Part000.Ok tt, s2)
    /\ Part000.live (Transfer.rt s2) = Part000.live (Transfer.rt store_0).
Proof.
  exact (SpinConserve_transfer_teardown Int64 32 d42 store_0
           (proj1 store_0_ok) (proj2 store_0_ok)).
Defined.

Lemma Auto_transfer_teardown_witness :
  exists h s1 s2,
    Transfer.CopySubspaceData_CUDA_Auto Int64 32 auto_perm store_0
    = (Part000.Ok h, s1)
    /\ Part000.live (Transfer.rt s1)
       = (h, 32)
         :: (Part000.fresh (Transfer.rt store_0) + 1 + 1,
             24)
         :: (Part000.fresh (Transfer.rt store_0) + 1,
             24)
         :: (Part000.fresh (Transfer.rt store_0),
             24)
         :: Part000.live (Transfer.rt store_0)
    /\ Transfer.DestroySubspaceData_CUDA_Auto h s1 = (Part000.Ok tt, s2)
    /\ Part000.live (Transfer.rt s2) = Part000.live (Transfer.rt store_0).
Proof.
  exact (Auto_transfer_teardown Int64 32 auto_perm store_0
           (proj1 store_0_ok) (proj2 store_0_ok)).
Defined.

Lemma Auto_dense_transfer_teardown_witness :
  exists h s1 s2,
    Transfer.CopySubspaceData_CUDA_Auto_dense Int64 32 auto_dense store_0
    = (Part000.Ok h, s1)
    /\ Part000.live (Transfer.rt s1)
       = (h, 32)
         :: (Part000.fresh (Transfer.rt store_0) + 1,
             32)
         :: (Part000.fresh (Transfer.rt store_0),
             16)
         :: Part000.live (Transfer.rt store_0)
    /\ Transfer.DestroySubspaceData_CUDA_Auto_dense h s1 = (Part000.Ok tt, s2)
    /\ Part000.live (Transfer.rt s2) = Part000.live (Transfer.rt store_0).
Proof.
  exact (Auto_dense_transfer_teardown Int64 32 auto_dense store_0
           (proj1 store_0_ok) (proj2 store_0_ok)).
Defined.



Lemma Destroy_failure_witness :
  exists h s1,
    Transfer.CopySubspaceData_CUDA_SpinConserve Int64 32 d42
      {| Transfer.rt := fails_at (Transfer.rt store_0) (5 + 2) 2;
         Transfer.mem := Transfer.mem store_0 |} = (Part000.Ok h, s1)
    /\ fst (Transfer.DestroySubspaceData_CUDA_SpinConserve h s1) = Part000.Err 2
    /\ length (Part000.live
                 (Transfer.rt (snd (Transfer.DestroySubspaceData_CUDA_SpinConserve h s1))))
       = (length (Part000.live (Transfer.rt store_0)) + (2 - (2 - 1)))%nat.
Proof.
  refine (proj1 (Destroy_failure Int64 32 32 d42 auto_perm store_0 2 2 _
                   (proj2 store_0_ok)) _).
  - discriminate.
  - lia.
Defined.


(** ** MatCreateVecs_GPU *)


Ltac unfold_petsc :=
  unfold MatVecs.MatCreateVecs_GPU, MatVecs.pbind, MatVecs.pret,
         MatVecs.MatGetSize, MatVecs.VecCreate, MatVecs.VecSetSizes,
         MatVecs.VecSetFromOptions, MatVecs.CHKERRQ, MatVecs.set_vec,
         MatVecs.get_vec.

Ltac reduce_petsc :=
  cbn [fst snd MatVecs.vecs MatVecs.next_vec MatVecs.pending
       MatVecs.global_size MatVecs.from_options Z.eqb find].

Ltac petsc_handles :=
  repeat first
    [ rewrite Z.eqb_refl
    | rewrite (proj2 (Z.eqb_neq _ _)) by lia
    | progress reduce_petsc ].




(** X19. The code of [VecSetFromOptions] is not checked: whatever the two
    calls return, [MatCreateVecs_GPU] reports success and hands out both
    vectors, configured only where the call succeeded. *)
Theorem MatCreateVecs_GPU_unchecked (M N e1 e2 : Z) (rest : list Z)
        (s : MatVecs.petsc) :
  MatVecs.pending s = 0 :: 0 :: 0 :: e1 :: 0 :: 0 :: e2 :: rest ->
  exists s',
    MatVecs.MatCreateVecs_GPU (M, N) true true s
    = (Part000.Ok (Some (MatVecs.next_vec s), Some (MatVecs.next_vec s + 1)), s')
    /\ MatVecs.get_vec s' (MatVecs.next_vec s)
       = Some {| MatVecs.global_size := Some N; MatVecs.from_options := e1 =? 0 |}
    /\ MatVecs.get_vec s' (MatVecs.next_vec s + 1)
       = Some {| MatVecs.global_size := Some M; MatVecs.from_options := e2 =? 0 |}.
Proof.
  destruct s as [vs nv pd]. cbn. intros ->.
  destruct e1 as [|p1|p1], e2 as [|p2|p2]; eexists;
    (split; [unfold_petsc; unfold MatVecs.next_code; petsc_handles; reflexivity|]);
    unfold MatVecs.get_vec; petsc_handles; split; reflexivity.
Qed.

Lemma MatCreateVecs_GPU_unchecked_witness :
  exists s',
    MatVecs.MatCreateVecs_GPU (6, 4) true true
      {| MatVecs.vecs := []; MatVecs.next_vec := 10;
         MatVecs.pending := [0; 0; 0; 73; 0; 0; 73] |}
    = (Part000.Ok (Some 10, Some 11), s')
    /\ MatVecs.get_vec s' 10
       = Some {| MatVecs.global_size := Some 4; MatVecs.from_options := 73 =? 0 |}
    /\ MatVecs.get_vec s' 11
       = Some {| MatVecs.global_size := Some 6; MatVecs.from_options := 73 =? 0 |}.
Proof.
  apply (MatCreateVecs_GPU_unchecked 6 4 73 73 []
           {| MatVecs.vecs := []; MatVecs.next_vec := 10;
              MatVecs.pending := [0; 0; 0; 73; 0; 0; 73] |}).
  reflexivity.
Defined.

(** X20. When [VecCreate] or [VecSetSizes] fails for the left vector, the
    error is returned and the right vector, already created, is not
    destroyed. *)
Theorem MatCreateVecs_GPU_left_failure (M N e : Z) (j : nat) (s : MatVecs.petsc) :
  e <> 0 ->
  (j < 2)%nat ->
  MatVecs.pending s = [0; 0; 0; 0] ++ repeat 0 j ++ [e] ->
  exists s',
    MatVecs.MatCreateVecs_GPU (M, N) true true s = (Part000.Err e, s')
    /\ MatVecs.get_vec s' (MatVecs.next_vec s)
       = Some {| MatVecs.global_size := Some N; MatVecs.from_options := true |}.
Proof.
  intros He Hj. destruct s as [vs nv pd]. cbn [MatVecs.pending MatVecs.next_vec].
  intros ->.
  destruct e as [|p|p]; [contradiction| |];
    (destruct j as [|[|j]]; [| |lia]; eexists;
     (split; [unfold_petsc; unfold MatVecs.next_code; cbn [repeat app];
              petsc_handles; reflexivity|]);
     unfold MatVecs.get_vec; petsc_handles; reflexivity).
Qed.

Lemma MatCreateVecs_GPU_left_failure_witness :
  exists s',
    MatVecs.MatCreateVecs_GPU (6, 4) true true
      {| MatVecs.vecs := []; MatVecs.next_vec := 10;
         MatVecs.pending := [0; 0; 0; 0; 0; 55] |} = (Part000.Err 55, s')
    /\ MatVecs.get_vec s' 10
       = Some {| MatVecs.global_size := Some 4; MatVecs.from_options := true |}.
Proof.
  apply (MatCreateVecs_GPU_left_failure 6 4 55 1
           {| MatVecs.vecs := []; MatVecs.next_vec := 10;
              MatVecs.pending := [0; 0; 0; 0; 0; 55] |}).
  - discriminate.
  - lia.
  - reflexivity.
Defined.
